(** * obskit: setting bindings, tabbed settings pages and the logger

    A shallow embedding of the TypeScript sources of obskit
    ([settings.ts] in its three revisions and [logger.ts]) together with
    the properties of the natural-language specification that are stated
    about them.

    Conventions of the embedding.
    - JavaScript objects that are shared by reference (tab pages, loggers)
      live in a store and are named by a location; two names alias exactly
      when the locations are equal.
    - A method that mutates [this] or the DOM is a computation in the
      state-and-exception monad [M]: it maps the world before the call to
      an outcome ([Return] or [Throw]) and the world after it.  A thrown
      [Error] keeps the world as it was at the [throw].
    - Calls into code that the library does not define (the overridable
      hooks of a page, the observer of a setting) are abstract: hooks are
      recorded in a call log together with the store they could observe,
      observers are arbitrary state transformers. *)

From stdpp Require Import base option list strings functions gmap fin_maps.
From Stdlib Require Import ZArith Ascii.


(** ** The state-and-exception monad *)

Inductive outcome (A : Type) : Type :=
  | Return (a : A)
  | Throw (msg : string).
Arguments Return {A} a.
Arguments Throw {A} msg.

Definition M (W A : Type) : Type := W → outcome A * W.

Definition ret {W A} (a : A) : M W A := λ w, (Return a, w).

Definition throw {W A} (msg : string) : M W A := λ w, (Throw msg, w).

Definition bind {W A B} (c : M W A) (k : A → M W B) : M W B :=
  λ w, match c w with
       | (Return a, w') => k a w'
       | (Throw msg, w') => (Throw msg, w')
       end.

Definition gets {W A} (f : W → A) : M W A := λ w, (Return (f w), w).

Definition modify {W} (f : W → W) : M W unit := λ w, (Return tt, f w).

(** The world a computation leaves behind, whatever its outcome. *)
Definition exec {W A} (c : M W A) (w : W) : W := snd (c w).

(** The outcome alone. *)
Definition result {W A} (c : M W A) (w : W) : outcome A := fst (c w).

Declare Scope js_scope.
Delimit Scope js_scope with js.
Notation "x ← c ; k" := (bind c (λ x, k))
  (at level 20, c at level 100, k at level 200, only parsing) : js_scope.
Notation "c1 ;; c2" := (bind c1 (λ _, c2))
  (at level 100, c2 at level 200, only parsing, right associativity)
  : js_scope.
Open Scope js_scope.

(** [when b c] is [if (b) { c }]. *)
Definition when {W} (b : bool) (c : M W unit) : M W unit :=
  if b then c else ret tt.

(** [forEach f l] is [l.forEach(f)]. *)
Fixpoint forEach {W A} (f : A → M W unit) (l : list A) : M W unit :=
  match l with
  | [] => ret tt
  | x :: l' => f x ;; forEach f l'
  end.

(** [Array.prototype.find]: the first element satisfying the predicate,
    [undefined] (here [None]) when there is none. *)
Fixpoint find {A} (p : A → bool) (l : list A) : option A :=
  match l with
  | [] => None
  | x :: l' => if p x then Some x else find p l'
  end.

(** ** Setting bindings ([settings.ts]) *)

Module Settings.

(** [SettingConfig].  A name may be a string or a [DocumentFragment]; the
    fragment is opaque to the library, so only its identity is kept. *)
Inductive label_text : Type :=
  | Text (s : string)
  | Fragment (id : nat).

Record SettingConfig : Type := {
  cfg_name : label_text;
  cfg_description : string;
}.

Section Binding.
(** [Σ] is the world the abstract accessors and the observer act on
    (typically the plugin with its settings object); [T] is the type of
    the bound value. *)
Context {Σ : Type} {T : Type}.

(** [BaseSetting<T>]: the fields set by the constructor, the optional
    observer [_onChange], and the abstract members [value] (getter and
    setter) and [default] supplied by the concrete subclass. *)
Record BaseSetting : Type := {
  name : label_text;
  description : string;
  _onChange : option (T → Σ → Σ);
  value_get : Σ → T;
  value_set : T → Σ → Σ;
  default : T;
}.

Definition new_BaseSetting (config : SettingConfig)
    (get : Σ → T) (set : T → Σ → Σ) (dflt : T) : BaseSetting :=
  {| name := cfg_name config;
     description := cfg_description config;
     _onChange := None;
     value_get := get;
     value_set := set;
     default := dflt |}.

(** [onChange(callback)]: stores the callback, replacing an earlier one,
    and returns [this]. *)
Definition onChange (callback : T → Σ → Σ) (this : BaseSetting)
    : BaseSetting :=
  {| name := name this;
     description := description this;
     _onChange := Some callback;
     value_get := value_get this;
     value_set := value_set this;
     default := default this |}.

(** [this.value = v]. *)
Definition set_value (this : BaseSetting) (v : T) : M Σ unit :=
  modify (value_set this v).

(** [this.value]. *)
Definition get_value (this : BaseSetting) : M Σ T :=
  gets (value_get this).

(** [this._onChange?.(x)]. *)
Definition notify (this : BaseSetting) (x : T) : M Σ unit :=
  match _onChange this with
  | Some callback => modify (callback x)
  | None => ret tt
  end.

(** What it means for a change handler [run] to commit [v] and then
    notify: the setter is applied to the world first; the observer, if
    one is registered, is then run in the world the setter has left,
    on the value the getter returns in that world. *)
Definition commits_then_notifies (this : BaseSetting) (v : T)
    (run : M Σ unit) : Prop :=
  ∀ σ, let committed := value_set this v σ in
       run σ = (Return tt,
                match _onChange this with
                | Some observer =>
                    observer (value_get this committed) committed
                | None => committed
                end).
End Binding.

Arguments BaseSetting : clear implicits.

(** What the host widget API is asked to render.  [Setting] is the host's
    labelled row; the component added to it is configured by a sequence
    of calls, recorded in order, and is given one change handler. *)
Inductive component_kind : Type :=
  | toggle | slider | text | textArea | dropdown.

Inductive component_call (raw : Type) : Type :=
  | setLimits (min max step : raw)
  | setDynamicTooltip
  | setValue (v : raw)
  | setPlaceholder (s : string)
  | addOption (key label : string).
Arguments setLimits {raw} min max step.
Arguments setDynamicTooltip {raw}.
Arguments setValue {raw} v.
Arguments setPlaceholder {raw} s.
Arguments addOption {raw} key label.

(** The closure handed to the component's [onChange] reads [this] when it
    runs, so a handler is a function of the binding as it is at the change
    event and of the raw value the control reports.  Every handler is an
    [async] arrow function without [await]: its body runs to completion
    inside the call, and a [Throw] outcome is the rejection of the promise
    it returns. *)
Record Setting (B raw Σ : Type) : Type := {
  setName : label_text;
  setDesc : string;
  component : component_kind;
  calls : list (component_call raw);
  handler : B → raw → M Σ unit;
}.
Arguments setName {B raw Σ} _.
Arguments setDesc {B raw Σ} _.
Arguments component {B raw Σ} _.
Arguments calls {B raw Σ} _.
Arguments handler {B raw Σ} _.

(** [if (this.placeholder) { c.setPlaceholder(this.placeholder) }]:
    [null] and the empty string are falsy. *)
Definition placeholder_calls {raw} (placeholder : option string)
    : list (component_call raw) :=
  match placeholder with
  | Some s => if String.eqb s "" then [] else [setPlaceholder s]
  | None => []
  end.

(** The strict equality operator [===] of a type of values. *)
Class StrictEq (T : Type) : Type := strict_eq : T → T → bool.
Infix "===" := strict_eq (at level 70, no associativity) : js_scope.

(** Strings and enum-like numbers are compared exactly. *)
#[global] Instance string_StrictEq : StrictEq string := String.eqb.
#[global] Instance nat_StrictEq : StrictEq nat := Nat.eqb.

(** JavaScript numbers as far as [===] sees them: the integers stand for
    the ordinary numbers, and [NaN] is the number that is not [===] to
    anything, itself included. *)
Inductive numeric : Type :=
  | Num (z : Z)
  | NaN.

#[global] Instance numeric_StrictEq : StrictEq numeric :=
  λ x y, match x, y with
         | Num a, Num b => (a =? b)%Z
         | _, _ => false
         end.

Section Variants.
Context {Σ : Type}.

(** *** [ToggleSetting] *)

Definition ToggleSetting : Type := BaseSetting Σ bool.

Definition ToggleSetting_onChange (this : ToggleSetting) (value : bool)
    : M Σ unit :=
  set_value this value ;;
  current ← get_value this;
  notify this current.

Definition ToggleSetting_display (this : ToggleSetting) (σ : Σ)
    : Setting ToggleSetting bool Σ :=
  {| setName := name this;
     setDesc := description this;
     component := toggle;
     calls := [setValue (value_get this σ)];
     handler := ToggleSetting_onChange |}.

(** *** [SliderSetting] *)

(** JavaScript numbers are only passed around by the slider, never
    computed with, so their type is left open. *)
Context {number : Type}.

Record SliderSetting : Type := {
  slider_base :> BaseSetting Σ number;
  minimum : number;
  maximum : number;
  step : number;
}.

Definition SliderSetting_onChange (this : SliderSetting) (value : number)
    : M Σ unit :=
  set_value this value ;;
  current ← get_value this;
  notify this current.

Definition SliderSetting_display (this : SliderSetting) (σ : Σ)
    : Setting SliderSetting number Σ :=
  {| setName := name this;
     setDesc := description this;
     component := slider;
     calls := [setLimits (minimum this) (maximum this) (step this);
               setDynamicTooltip;
               setValue (value_get this σ)];
     handler := SliderSetting_onChange |}.

(** *** [TextInputSetting] and [TextAreaSetting] *)

Record TextInputSetting : Type := {
  input_base :> BaseSetting Σ string;
  input_placeholder : option string;
}.

Definition TextInputSetting_onChange (this : TextInputSetting)
    (value : string) : M Σ unit :=
  set_value this value ;;
  current ← get_value this;
  notify this current.

Definition TextInputSetting_display (this : TextInputSetting) (σ : Σ)
    : Setting TextInputSetting string Σ :=
  {| setName := name this;
     setDesc := description this;
     component := text;
     calls := setValue (value_get this σ) ::
              placeholder_calls (input_placeholder this);
     handler := TextInputSetting_onChange |}.

Record TextAreaSetting : Type := {
  area_base :> BaseSetting Σ string;
  area_placeholder : option string;
}.

Definition TextAreaSetting_onChange (this : TextAreaSetting)
    (value : string) : M Σ unit :=
  set_value this value ;;
  current ← get_value this;
  notify this current.

Definition TextAreaSetting_display (this : TextAreaSetting) (σ : Σ)
    : Setting TextAreaSetting string Σ :=
  {| setName := name this;
     setDesc := description this;
     component := textArea;
     calls := setValue (value_get this σ) ::
              placeholder_calls (area_placeholder this);
     handler := TextAreaSetting_onChange |}.

(** *** [DropdownSetting<T>] *)

(** [===] on the value type.  JavaScript fixes it per type of value and
    it is not an equivalence on every type (the number [NaN] is not
    [===] to itself), so it is a parameter of the model with no law
    attached; what a statement needs of it is said there. *)
Context {T : Type} `{StrictEq T}.

Record DropdownOption : Type := {
  key : string;
  label : string;
  value : T;
}.

Record DropdownSetting : Type := {
  dropdown_base :> BaseSetting Σ T;
  options : list DropdownOption;
}.

(** [getKeyForValue(value)]:
    [option?.key ?? this.options[0]?.key ?? ''] *)
Definition getKeyForValue (this : DropdownSetting) (v : T) : string :=
  match find (λ opt, value opt === v) (options this) with
  | Some option => key option
  | None =>
      match options this !! 0%nat with
      | Some first => key first
      | None => ""
      end
  end.

(** [getValueForKey(key)] *)
Definition getValueForKey (this : DropdownSetting) (k : string)
    : M Σ T :=
  match find (λ opt, bool_decide (key opt = k)) (options this) with
  | None => throw ("No option found for key: " +:+ k)
  | Some option => ret (value option)
  end.

Definition DropdownSetting_onChange (this : DropdownSetting)
    (k : string) : M Σ unit :=
  resolved ← getValueForKey this k;
  set_value this resolved ;;
  current ← get_value this;
  notify this current.

Definition DropdownSetting_display (this : DropdownSetting) (σ : Σ)
    : Setting DropdownSetting string Σ :=
  {| setName := name this;
     setDesc := description this;
     component := dropdown;
     calls := map (λ opt, addOption (key opt) (label opt)) (options this)
              ++ [setValue (getKeyForValue this (value_get this σ))];
     handler := DropdownSetting_onChange |}.

(** The keys and the values of the options, in order. *)
Definition keys (this : DropdownSetting) : list string :=
  map key (options this).
Definition values (this : DropdownSetting) : list T :=
  map value (options this).

(** The values can be compared for equality, as the data model asks of
    the values of a dropdown: on each of them [===] decides equality.
    A list that holds [NaN] is not of this kind. *)
Definition equality_comparable (vs : list T) : Prop :=
  ∀ x, x ∈ vs → ∀ y, (x === y) = true ↔ x = y.
End Variants.

Arguments SliderSetting : clear implicits.
Arguments TextInputSetting : clear implicits.
Arguments TextAreaSetting : clear implicits.
Arguments DropdownOption : clear implicits.
Arguments DropdownSetting : clear implicits.

End Settings.

(** ** Tabbed settings pages ([settings.ts], the revisions with tabs) *)

Module Tabs.

(** A page is an object shared between the registry, the [activeTab]
    reference and the click handlers of the buttons: it is named by its
    location in the store. *)
Definition loc : Type := nat.

(** [SettingsTabPage]: the constructor stores the name and starts the
    page inactive.  The plugin reference plays no part in tab switching
    and is left out. *)
Record SettingsTabPage : Type := {
  _name : string;
  isActive : bool;
}.

Definition new_SettingsTabPage (name : string) : SettingsTabPage :=
  {| _name := name; isActive := false |}.

(** The two built-in string operations the id is made of:
    [String.prototype.toLowerCase] and [replace(/\s+/g, "-")].  They
    belong to the language, not to this library, and work on Unicode
    text; they are parameters of the model. *)
Class StringBuiltins : Type := {
  toLowerCase : string → string;
  replaceWhiteSpace : string → string;
}.

(** [get id()] *)
Definition get_id `{JS : StringBuiltins} (page : SettingsTabPage) : string :=
  replaceWhiteSpace (toLowerCase (_name page)).

(** [get name()] *)
Definition get_name (page : SettingsTabPage) : string := _name page.

(** The overridable methods of a page.  The library cannot know their
    bodies; each call is recorded with the store as it is when the call
    is made, which is all the page could observe of the flags. *)
Inductive method : Type := OnDeactivate | OnActivate | Display.

Record call : Type := {
  callee : loc;
  invoked : method;
  store_at_call : loc → SettingsTabPage;
}.

(** A tab button: its text, whether it carries the class
    [obskit-settings-tab-button-active], and the page captured by its
    click listener. *)
Record TabButton : Type := {
  btn_text : string;
  btn_active : bool;
  btn_click : loc;
}.

(** Children of the container element handed to [display]: what the host
    had put there, or a [div] created by the manager. *)
Inductive node : Type :=
  | HostNode (n : nat)
  | Div (cls : string).

(** The fields of the manager, the container element it renders into,
    the store of pages and the log of calls into page code (oldest
    first).  [tabContainer] holds the buttons of the tab strip,
    [contentContainer] the pages whose [display] has filled the content
    region since it was last emptied. *)
Record World : Type := {
  tabs : list loc;
  activeTab : option loc;
  tabContainer : option (list TabButton);
  contentContainer : option (list loc);
  containerEl : list node;
  store : loc → SettingsTabPage;
  log : list call;
}.

Definition set_tabs (f : list loc → list loc) (w : World) : World :=
  {| tabs := f (tabs w); activeTab := activeTab w;
     tabContainer := tabContainer w; contentContainer := contentContainer w;
     containerEl := containerEl w; store := store w; log := log w |}.

Definition set_activeTab (a : option loc) (w : World) : World :=
  {| tabs := tabs w; activeTab := a;
     tabContainer := tabContainer w; contentContainer := contentContainer w;
     containerEl := containerEl w; store := store w; log := log w |}.

Definition set_tabContainer (t : option (list TabButton)) (w : World)
    : World :=
  {| tabs := tabs w; activeTab := activeTab w;
     tabContainer := t; contentContainer := contentContainer w;
     containerEl := containerEl w; store := store w; log := log w |}.

Definition set_contentContainer (c : option (list loc)) (w : World)
    : World :=
  {| tabs := tabs w; activeTab := activeTab w;
     tabContainer := tabContainer w; contentContainer := c;
     containerEl := containerEl w; store := store w; log := log w |}.

Definition set_containerEl (f : list node → list node) (w : World)
    : World :=
  {| tabs := tabs w; activeTab := activeTab w;
     tabContainer := tabContainer w; contentContainer := contentContainer w;
     containerEl := f (containerEl w); store := store w; log := log w |}.

Definition set_store (f : (loc → SettingsTabPage) → loc → SettingsTabPage)
    (w : World) : World :=
  {| tabs := tabs w; activeTab := activeTab w;
     tabContainer := tabContainer w; contentContainer := contentContainer w;
     containerEl := containerEl w; store := f (store w); log := log w |}.

Definition set_log (f : list call → list call) (w : World) : World :=
  {| tabs := tabs w; activeTab := activeTab w;
     tabContainer := tabContainer w; contentContainer := contentContainer w;
     containerEl := containerEl w; store := store w; log := f (log w) |}.

(** [page.isActive = b] *)
Definition assign_isActive (page : loc) (b : bool) : M World unit :=
  modify (set_store (λ σ,
    <[page := {| _name := _name (σ page); isActive := b |}]> σ)).

(** [page.onActivate()], [page.onDeactivate()], [page.display(el)] *)
Definition invoke (page : loc) (m : method) : M World unit :=
  modify (λ w, set_log (λ l, l ++
    [{| callee := page; invoked := m; store_at_call := store w |}]) w).

(** *** [SettingsTabManager] *)

Definition addTab (tab : loc) : M World unit :=
  modify (set_tabs (λ ts, ts ++ [tab])).

Definition addTabs (new_tabs : list loc) : M World unit :=
  modify (set_tabs (λ ts, ts ++ new_tabs)).

Definition getTabs : M World (list loc) := gets tabs.

Definition getActiveTab : M World (option loc) := gets activeTab.

(** [button.addClass(..-active)] or [removeClass] according to the flag
    of the page registered at the button's index; a button without a page
    at its index is left alone. *)
Definition restyle (w : World) (index : nat) (button : TabButton)
    : TabButton :=
  match tabs w !! index with
  | Some tab =>
      {| btn_text := btn_text button;
         btn_active := isActive (store w tab);
         btn_click := btn_click button |}
  | None => button
  end.

Definition updateTabButtonStyles : M World unit :=
  container ← gets tabContainer;
  match container with
  | None => ret tt
  | Some tabButtons =>
      modify (λ w, set_tabContainer (Some (imap (restyle w) tabButtons)) w)
  end.

Definition displayActiveTabContent : M World unit :=
  content ← gets contentContainer;
  active ← gets activeTab;
  match content, active with
  | Some _, Some page =>
      modify (set_contentContainer (Some [])) ;;
      invoke page Display ;;
      modify (λ w, set_contentContainer
                     (option_map (λ c, c ++ [page]) (contentContainer w)) w)
  | _, _ => ret tt
  end.

Definition activateTab (tab : loc) : M World unit :=
  current ← gets activeTab;
  match current with
  | Some active =>
      assign_isActive active false ;;
      invoke active OnDeactivate
  | None => ret tt
  end ;;
  modify (set_activeTab (Some tab)) ;;
  assign_isActive tab true ;;
  invoke tab OnActivate ;;
  updateTabButtonStyles ;;
  displayActiveTabContent.

(** [index] is a JavaScript number; the integers are the ones that can
    pass the range test and hit an element. *)
Definition setActiveTab (index : Z) : M World unit :=
  ts ← gets tabs;
  if ((0 <=? index)%Z && (index <? Z.of_nat (length ts))%Z)%bool
  then match ts !! Z.to_nat index with
       | Some tab => activateTab tab
       | None => ret tt
       end
  else ret tt.

Definition setActiveTabById `{JS : StringBuiltins} (id : string)
    : M World unit :=
  ts ← gets tabs;
  σ ← gets store;
  match find (λ t, String.eqb (get_id (σ t)) id) ts with
  | Some tab => activateTab tab
  | None => ret tt
  end.

(** The button created for one page by the [forEach] of [display]. *)
Definition createTabButton (tab : loc) : M World unit :=
  modify (λ w, set_tabContainer
    (option_map (λ bs, bs ++ [{| btn_text := get_name (store w tab);
                                 btn_active := false;
                                 btn_click := tab |}])
                (tabContainer w)) w).

(** Everything [display] does once the registry is known to be
    non-empty and the container has been emptied. *)
Definition render : M World unit :=
  modify (set_containerEl (λ cs, cs ++ [Div "obskit-settings-tab-container"])) ;;
  modify (set_tabContainer (Some [])) ;;
  modify (set_containerEl (λ cs, cs ++ [Div "obskit-settings-tab-content"])) ;;
  modify (set_contentContainer (Some [])) ;;
  ts ← gets tabs;
  forEach createTabButton ts ;;
  ts ← gets tabs;
  if (0 <? length ts)%nat
  then match ts !! 0%nat with
       | Some firstTab => activateTab firstTab
       | None => ret tt
       end
  else ret tt.

(** [SettingsTabManager.display(containerEl)] *)
Definition display : M World unit :=
  ts ← gets tabs;
  if (length ts =? 0)%nat
  then throw "No tabs have been added to the manager"
  else
    modify (set_containerEl (λ _, [])) ;;
    render.

(** *** [PluginSettingsTab], the wrapper around a manager *)

Definition PluginSettingsTab_display : M World unit := display.

Definition PluginSettingsTab_hide : M World unit :=
  activeTab ← getActiveTab;
  match activeTab with
  | Some page =>
      assign_isActive page false ;;
      invoke page OnDeactivate
  | None => ret tt
  end.

(** What a click on the button at position [i] of the strip runs. *)
Definition click (i : nat) : M World unit :=
  container ← gets tabContainer;
  match container ≫= (λ bs, bs !! i) with
  | Some button => activateTab (btn_click button)
  | None => ret tt
  end.

End Tabs.

(** *** [PluginSettingsTab] with the registry built in

    The other revision of [settings.ts] has no separate manager: the
    settings tab itself holds the registry.  Its methods have the bodies
    of the manager's, except for [display], which empties the container
    before it looks at the registry, and for [addTabs], which pushes the
    pages one by one. *)

Module BuiltinTabs.
Import Tabs.

Definition addTab (tab : loc) : M World unit := Tabs.addTab tab.

Definition addTabs (new_tabs : list loc) : M World unit :=
  forEach (λ tab, modify (set_tabs (λ ts, ts ++ [tab]))) new_tabs.

Definition getActiveTab : M World (option loc) := gets activeTab.

Definition activateTab (tab : loc) : M World unit := Tabs.activateTab tab.

Definition setActiveTab (index : Z) : M World unit :=
  Tabs.setActiveTab index.

Definition setActiveTabById `{JS : StringBuiltins} (id : string)
    : M World unit :=
  Tabs.setActiveTabById id.

Definition display : M World unit :=
  modify (set_containerEl (λ _, [])) ;;
  ts ← gets tabs;
  if (length ts =? 0)%nat
  then throw "No tabs have been added to the settings tab"
  else render.

Definition hide : M World unit :=
  activeTab ← getActiveTab;
  match activeTab with
  | Some page =>
      assign_isActive page false ;;
      invoke page OnDeactivate
  | None => ret tt
  end.

End BuiltinTabs.

(** *** The built-in string operations on ASCII text

    On a string of ASCII characters [toLowerCase] lowers the letters A
    to Z and leaves the rest, and [/\s/] matches the six ASCII blanks.
    These are the algorithms; they give the instance of the built-ins
    used to run the examples, whose names are ASCII. *)

Module AsciiText.

(** [toLowerCase] on one ASCII character. *)
Definition lower (c : ascii) : ascii :=
  let n := nat_of_ascii c in
  if (65 <=? n)%nat && (n <=? 90)%nat then ascii_of_nat (n + 32) else c.

Fixpoint lower_all (s : string) : string :=
  match s with
  | EmptyString => EmptyString
  | String c s' => String (lower c) (lower_all s')
  end.

(** The ASCII characters matched by [\s]: tab, line feed, vertical tab,
    form feed, carriage return and space. *)
Definition is_space (c : ascii) : bool :=
  let n := nat_of_ascii c in
  ((9 <=? n)%nat && (n <=? 13)%nat) || (n =? 32)%nat.

(** [replace(/\s+/g, "-")]: every maximal run of white space becomes one
    hyphen.  [in_run] tells that the previous character was white
    space. *)
Fixpoint replace_runs (in_run : bool) (s : string) : string :=
  match s with
  | EmptyString => EmptyString
  | String c s' =>
      if is_space c
      then if in_run then replace_runs true s'
           else String "-"%char (replace_runs true s')
      else String c (replace_runs false s')
  end.

(** A 7-bit character. *)
Definition is_ascii (c : ascii) : bool := (nat_of_ascii c <? 128)%nat.

Definition builtins : Tabs.StringBuiltins :=
  {| Tabs.toLowerCase := lower_all;
     Tabs.replaceWhiteSpace := replace_runs false |}.

End AsciiText.

(** ** The logger ([logger.ts]) *)

Module Logging.

Inductive LogLevel : Type := DEBUG | INFO | WARN | ERROR | SILENT.

(** The numeric values of the enum members. *)
Definition level_value (level : LogLevel) : Z :=
  match level with
  | DEBUG => 30
  | INFO => 20
  | WARN => 10
  | ERROR => 0
  | SILENT => -1
  end.

(** A [Logger] instance is an object; the registry and its clients share
    it by reference. *)
Definition loc : Type := nat.

Record Logger : Type := {
  _name : string;
  _logLevel : LogLevel;
}.

(** One line written by [console.log]: the formatted text and the extra
    arguments passed along. *)
Record console_line : Type := {
  line_text : string;
  line_args : list string;
}.

(** The two static fields of the class, the store of [Logger] objects
    with the next unused location, and the console. *)
Record World : Type := {
  loggers : gmap string loc;
  globalLogLevel : LogLevel;
  heap : loc → Logger;
  next_loc : loc;
  console : list console_line;
}.

(** The state when the module has been loaded: an empty registry and the
    global level [ERROR]. *)
Definition initial : World :=
  {| loggers := ∅;
     globalLogLevel := ERROR;
     heap := λ _, {| _name := ""; _logLevel := SILENT |};
     next_loc := 0%nat;
     console := [] |}.

(** [new Logger(name, logLevel)] *)
Definition new_Logger (name : string) (logLevel : LogLevel) : M World loc :=
  λ w, (Return (next_loc w),
        {| loggers := loggers w;
           globalLogLevel := globalLogLevel w;
           heap := <[next_loc w := {| _name := name; _logLevel := logLevel |}]>
                     (heap w);
           next_loc := S (next_loc w);
           console := console w |}).

(** [get name()] and [get logLevel()] *)
Definition name (this : loc) : M World string :=
  gets (λ w, _name (heap w this)).

Definition logLevel (this : loc) : M World LogLevel :=
  gets (λ w, _logLevel (heap w this)).

(** [logger._logLevel = level] *)
Definition assign_logLevel (this : loc) (level : LogLevel) (w : World)
    : World :=
  {| loggers := loggers w;
     globalLogLevel := globalLogLevel w;
     heap := <[this := {| _name := _name (heap w this);
                          _logLevel := level |}]> (heap w);
     next_loc := next_loc w;
     console := console w |}.

Definition shouldLog (this : loc) (level : LogLevel) : M World bool :=
  gets (λ w, (level_value level <=? level_value (_logLevel (heap w this)))%Z).

Definition log (this : loc) (level message : string) (args : list string)
    : M World unit :=
  modify (λ w,
    {| loggers := loggers w;
       globalLogLevel := globalLogLevel w;
       heap := heap w;
       next_loc := next_loc w;
       console := console w ++
         [{| line_text := "[" +:+ level +:+ "] chopro:"
                          +:+ _name (heap w this) +:+ " -- " +:+ message;
             line_args := args |}] |}).

Definition debug (this : loc) (message : string) (args : list string)
    : M World unit :=
  b ← shouldLog this DEBUG; when b (log this "DEBUG" message args).

Definition info (this : loc) (message : string) (args : list string)
    : M World unit :=
  b ← shouldLog this INFO; when b (log this "INFO" message args).

Definition warn (this : loc) (message : string) (args : list string)
    : M World unit :=
  b ← shouldLog this WARN; when b (log this "WARN" message args).

Definition error (this : loc) (message : string) (args : list string)
    : M World unit :=
  b ← shouldLog this ERROR; when b (log this "ERROR" message args).

(** [Logger.getLogger(name)] *)
Definition getLogger (name : string) : M World loc :=
  registry ← gets loggers;
  match registry !! name with
  | Some logger => ret logger
  | None =>
      level ← gets globalLogLevel;
      logger ← new_Logger name level;
      modify (λ w,
        {| loggers := <[name := logger]> (loggers w);
           globalLogLevel := globalLogLevel w;
           heap := heap w;
           next_loc := next_loc w;
           console := console w |}) ;;
      ret logger
  end.

(** [Logger.setGlobalLogLevel(level)]: the loop runs over the values of
    the registry; every iteration assigns the same level, so the order of
    the iteration does not show in the result. *)
Definition setGlobalLogLevel (level : LogLevel) : M World unit :=
  modify (λ w,
    {| loggers := loggers w;
       globalLogLevel := level;
       heap := heap w;
       next_loc := next_loc w;
       console := console w |}) ;;
  registry ← gets loggers;
  forEach (λ logger, modify (assign_logLevel logger level))
          (map snd (map_to_list registry)).

Definition getGlobalLogLevel : M World LogLevel := gets globalLogLevel.

(** The calls a client can make on the class. *)
Inductive request : Type :=
  | GetLogger (name : string)
  | SetGlobalLogLevel (level : LogLevel).

Definition serve (r : request) : M World unit :=
  match r with
  | GetLogger name => getLogger name ;; ret tt
  | SetGlobalLogLevel level => setGlobalLogLevel level
  end.

End Logging.


(** ** Concrete bindings, pages and managers used below *)

(** The list of options with which the round trip breaks: the values are
    pairwise distinct, the keys are not. *)
Definition shared_key_options : list (Settings.DropdownOption nat) :=
  [ {| Settings.key := "a"; Settings.label := "One"; Settings.value := 1%nat |};
    {| Settings.key := "a"; Settings.label := "Two"; Settings.value := 2%nat |} ].

Definition shared_key_dropdown : Settings.DropdownSetting unit nat :=
  {| Settings.dropdown_base :=
       Settings.new_BaseSetting
         {| Settings.cfg_name := Settings.Text "Number";
            Settings.cfg_description := "A number." |}
         (λ _, 2%nat) (λ _ σ, σ) 1%nat;
     Settings.options := shared_key_options |}.

(** A dropdown over numbers one of whose options carries [NaN]. *)
Definition nan_dropdown : Settings.DropdownSetting unit Settings.numeric :=
  {| Settings.dropdown_base :=
       Settings.new_BaseSetting
         {| Settings.cfg_name := Settings.Text "Ratio";
            Settings.cfg_description := "A ratio." |}
         (λ _, Settings.NaN) (λ _ σ, σ) (Settings.Num 1);
     Settings.options :=
       [ {| Settings.key := "one"; Settings.label := "One";
            Settings.value := Settings.Num 1 |};
         {| Settings.key := "nan"; Settings.label := "Undefined";
            Settings.value := Settings.NaN |} ] |}.

(** The dropdown of the example plugin that selects the theme; the
    settings object is reduced to the bound field. *)
Definition theme_options : list (Settings.DropdownOption string) :=
  [ {| Settings.key := "default"; Settings.label := "Default";
       Settings.value := "default" |};
    {| Settings.key := "dark"; Settings.label := "Dark";
       Settings.value := "dark" |};
    {| Settings.key := "light"; Settings.label := "Light";
       Settings.value := "light" |};
    {| Settings.key := "custom"; Settings.label := "Custom";
       Settings.value := "custom" |} ].

Definition ThemeSetting : Settings.DropdownSetting string string :=
  {| Settings.dropdown_base :=
       Settings.new_BaseSetting
         {| Settings.cfg_name := Settings.Text "Theme";
            Settings.cfg_description := "Choose your preferred theme." |}
         (λ theme, theme) (λ val _, val) "default";
     Settings.options := theme_options |}.

(** The three pages of the example plugin, not yet displayed. *)
Definition example_pages (page : Tabs.loc) : Tabs.SettingsTabPage :=
  match page with
  | 0%nat => Tabs.new_SettingsTabPage "General"
  | 1%nat => Tabs.new_SettingsTabPage "Performance"
  | _ => Tabs.new_SettingsTabPage "Advanced"
  end.

(** A manager just constructed, before an element of the host that holds
    two nodes of its own. *)
Definition new_SettingsTabManager : Tabs.World :=
  {| Tabs.tabs := [];
     Tabs.activeTab := None;
     Tabs.tabContainer := None;
     Tabs.contentContainer := None;
     Tabs.containerEl := [Tabs.HostNode 0; Tabs.HostNode 1];
     Tabs.store := example_pages;
     Tabs.log := [] |}.

(** The settings tab of the example plugin: the three pages are
    registered in the constructor. *)
Definition ExampleSettingsTab : Tabs.World :=
  exec (Tabs.addTabs [0; 1; 2]%nat) new_SettingsTabManager.

(** ** Notions used in the statements about tabs *)

Module TabFacts.
Import Tabs.

(** The store after [page.isActive = b]. *)
Definition flagged (page : loc) (b : bool) (σ : loc → SettingsTabPage)
    : loc → SettingsTabPage :=
  <[page := {| _name := _name (σ page); isActive := b |}]> σ.

(** The calls into page code made while [c] runs from [w]. *)
Definition new_calls {A} (c : M World A) (w : World) : list call :=
  drop (length (log w)) (log (exec c w)).

(** A call, without the store it could observe. *)
Definition signature (c : call) : loc * method := (callee c, invoked c).

(** The page of the latest [onActivate] call in a log, if any. *)
Definition last_activated (l : list call) : option loc :=
  foldl (λ acc c, match invoked c with
                  | OnActivate => Some (callee c)
                  | _ => acc
                  end) None l.

(** The flags of the registered pages are written by the manager alone:
    a registered page that is flagged active is the page the manager
    holds in [activeTab].  Pages as constructed satisfy this, and every
    method of the manager and of the settings tab keeps it. *)
Definition flags_owned (w : World) : Prop :=
  ∀ r, r ∈ tabs w → isActive (store w r) = true → activeTab w = Some r.

(** Exactly one registered page is flagged active, and it is [a]. *)
Definition only_active (w : World) (a : loc) : Prop :=
  a ∈ tabs w ∧ ∀ r, r ∈ tabs w → (isActive (store w r) = true ↔ r = a).

(** The button [display] creates for a page. *)
Definition tab_button (σ : loc → SettingsTabPage) (tab : loc) : TabButton :=
  {| btn_text := get_name (σ tab); btn_active := false; btn_click := tab |}.

(** The world when [display] has built the two regions and the buttons
    and is about to activate the first page. *)
Definition strip_built (w : World) : World :=
  {| tabs := tabs w;
     activeTab := activeTab w;
     tabContainer := Some (map (tab_button (store w)) (tabs w));
     contentContainer := Some [];
     containerEl := containerEl w ++ [Div "obskit-settings-tab-container";
                                      Div "obskit-settings-tab-content"];
     store := store w;
     log := log w |}.

(** The calls that switch tabs after the manager has been displayed. *)
Inductive request : Type :=
  | ActivateTab (tab : loc)
  | SetActiveTab (index : Z)
  | SetActiveTabById (id : string)
  | Click (button : nat).

Definition serve `{JS : StringBuiltins} (r : request) : M World unit :=
  match r with
  | ActivateTab tab => activateTab tab
  | SetActiveTab index => setActiveTab index
  | SetActiveTabById id => setActiveTabById id
  | Click button => click button
  end.

(** The buttons of the strip stand for the registered pages, in order. *)
Definition buttons_match (w : World) : Prop :=
  ∃ bs, tabContainer w = Some bs ∧ map btn_click bs = tabs w.

(** [a] is the manager's active page, it is the one registered page that
    is flagged active, and it is the page activated most recently. *)
Definition switched_to (w : World) (a : loc) : Prop :=
  activeTab w = Some a ∧ only_active w a ∧ last_activated (log w) = Some a.

(** The page a request asks for, read off the registry and the names of
    the pages: the page itself, the page registered at the index, the
    first page with the id, the page the button at the position stands
    for; none when the index, the id or the position hits nothing. *)
Definition target `{JS : StringBuiltins} (w : World) (r : request)
    : option loc :=
  match r with
  | ActivateTab tab => Some tab
  | SetActiveTab index =>
      if decide (0 ≤ index < Z.of_nat (length (tabs w)))%Z
      then tabs w !! Z.to_nat index
      else None
  | SetActiveTabById id =>
      head (filter (λ t, get_id (store w t) = id) (tabs w))
  | Click button => tabs w !! button
  end.

(** The page asked for most recently by a sequence of requests made
    after [display] has activated [first]: the target of the last
    request that has one. *)
Definition requested `{JS : StringBuiltins} (w : World) (first : loc)
    (qs : list request) : loc :=
  foldl (λ current q, default current (target w q)) first qs.

(** [activateTab] is private: the manager only ever passes it a page of
    its registry. *)
Definition well_formed (ts : list loc) (r : request) : Prop :=
  match r with
  | ActivateTab tab => tab ∈ ts
  | _ => True
  end.

End TabFacts.

(** The settings tab of the example plugin after the host has opened it:
    "General" is the active page. *)
Definition opened_ExampleSettingsTab : Tabs.World :=
  exec Tabs.PluginSettingsTab_display ExampleSettingsTab.

(** A session on the opened settings tab of the example plugin. *)
Definition example_session : list TabFacts.request :=
  [ TabFacts.SetActiveTabById "advanced";
    TabFacts.SetActiveTab 1;
    TabFacts.Click 0;
    TabFacts.ActivateTab 2%nat;
    TabFacts.SetActiveTab 7;
    TabFacts.SetActiveTabById "no-such-page" ].

(** The slider of the example plugin bound to the refresh interval.  The
    world is the bound number together with a record of what the
    observer was handed and what the getter returned at that moment. *)
Definition RefreshIntervalSetting
    : Settings.SliderSetting (Z * list (Z * Z)) Z :=
  {| Settings.slider_base :=
       Settings.onChange (λ value σ, (σ.1, σ.2 ++ [(value, σ.1)]))
         (Settings.new_BaseSetting
            {| Settings.cfg_name := Settings.Text "Refresh Interval";
               Settings.cfg_description :=
                 "Set the refresh interval in seconds." |}
            (λ σ, σ.1) (λ val σ, (val, σ.2)) 30%Z);
     Settings.minimum := 5%Z;
     Settings.maximum := 300%Z;
     Settings.step := 5%Z |}.

(** ** Notions used in the further statements *)

Module IdFacts.
Import Tabs AsciiText.

(** An ASCII capital letter. *)
Definition is_upper (c : ascii) : bool :=
  let n := nat_of_ascii c in (65 <=? n)%nat && (n <=? 90)%nat.

(** Every character of the string satisfies the test. *)
Fixpoint all_chars (p : ascii → bool) (s : string) : bool :=
  match s with
  | EmptyString => true
  | String c s' => p c && all_chars p s'
  end.

(** A string of ASCII characters. *)
Definition ascii_text (s : string) : bool := all_chars is_ascii s.

(** A string that [get id()] leaves alone: ASCII, no capital letter, no
    white space. *)
Definition slug (s : string) : bool :=
  all_chars (λ c, is_ascii c && negb (is_upper c) && negb (is_space c)) s.

(** What is known of the built-ins on ASCII text: there they do what the
    ASCII algorithms do. *)
Definition ascii_conforming (JS : StringBuiltins) : Prop :=
  ∀ s, ascii_text s = true →
       toLowerCase s = lower_all s ∧
       replaceWhiteSpace s = replace_runs false s.

End IdFacts.

Module StripFacts.
Import Tabs TabFacts.

(** The strip shows the registry: one button per registered page, in
    order, wired to the page, labelled with its name, and carrying the
    active class exactly when the page is flagged active. *)
Definition strip_faithful (w : World) : Prop :=
  ∃ bs, tabContainer w = Some bs ∧
        map btn_click bs = tabs w ∧
        map btn_text bs = map (λ t, get_name (store w t)) (tabs w) ∧
        map btn_active bs = map (λ t, isActive (store w t)) (tabs w).

(** What the host and the user can do to a settings tab: open it (the
    host calls [display]), close it (the host calls [hide]), or switch
    pages. *)
Inductive host_event : Type :=
  | Open
  | Close
  | Switch (q : request).

Definition handle `{JS : StringBuiltins} (e : host_event) : M World unit :=
  match e with
  | Open => PluginSettingsTab_display
  | Close => PluginSettingsTab_hide
  | Switch q => serve q
  end.

Definition permitted (ts : list loc) (e : host_event) : Prop :=
  match e with
  | Switch q => well_formed ts q
  | _ => True
  end.

(** The strip, if it has been built, has a button for each registered
    page. *)
Definition strip_built_or_absent (w : World) : Prop :=
  tabContainer w = None ∨ buttons_match w.

End StripFacts.

(** The settings tab of the example plugin is opened, switched, closed
    and opened again. *)
Definition example_events : list StripFacts.host_event :=
  [ StripFacts.Switch (TabFacts.SetActiveTab 1);
    StripFacts.Open;
    StripFacts.Switch (TabFacts.SetActiveTabById "advanced");
    StripFacts.Close;
    StripFacts.Switch (TabFacts.Click 1);
    StripFacts.Open;
    StripFacts.Switch (TabFacts.ActivateTab 1%nat) ].

Module LogFacts.
Import Logging.

(** The four logging methods. *)
Inductive severity : Type := Debug | Info | Warn | Error.

Definition emit (s : severity) (this : loc) (message : string)
    (args : list string) : M World unit :=
  match s with
  | Debug => debug this message args
  | Info => info this message args
  | Warn => warn this message args
  | Error => error this message args
  end.

(** The call wrote a line to the console. *)
Definition prints (s : severity) (this : loc) (message : string)
    (args : list string) (w : World) : Prop :=
  console (exec (emit s this message args) w) ≠ console w.

(** What client code does with the class: ask for a logger, set the
    global level, or log through the logger of some name. *)
Inductive action : Type :=
  | Ask (name : string)
  | SetLevel (level : LogLevel)
  | Say (name : string) (s : severity) (message : string)
        (args : list string).

Definition perform (a : action) : M World unit :=
  match a with
  | Ask name => getLogger name ;; ret tt
  | SetLevel level => setGlobalLogLevel level
  | Say name s message args =>
      logger ← getLogger name;
      emit s logger message args
  end.

(** The tag a method puts in front of its lines. *)
Definition tag (s : severity) : string :=
  match s with
  | Debug => "DEBUG"
  | Info => "INFO"
  | Warn => "WARN"
  | Error => "ERROR"
  end.

(** An action that leaves the global level alone. *)
Definition keeps_level (a : action) : Prop :=
  match a with
  | SetLevel _ => False
  | _ => True
  end.

(** Every registered logger carries the global level. *)
Definition synced (w : World) : Prop :=
  ∀ name l, loggers w !! name = Some l →
            _logLevel (heap w l) = globalLogLevel w.

(** Every registered logger is an allocated object that carries the name
    it is registered under. *)
Definition named (w : World) : Prop :=
  ∀ name l, loggers w !! name = Some l →
            (l < next_loc w)%nat ∧ _name (heap w l) = name.

End LogFacts.
(** * Properties *)

(** ** [Array.prototype.find] *)

Section Find.
Context {A : Type} (p : A → bool).

Lemma find_Some_first (l : list A) (x : A) :
  find p l = Some x ↔
  ∃ before after, l = before ++ x :: after ∧ p x = true ∧
                  ∀ y, y ∈ before → p y = false.
Proof.
  induction l as [|a l IH]; simpl.
  - split; [done|]. intros (before & after & E & _).
    by destruct before.
  - destruct (p a) eqn:Ha.
    + split.
      * intros [= <-]. exists [], l. split_and!; [done..|].
        intros y Hy. by apply elem_of_nil in Hy.
      * intros ([|b before] & after & E & Hx & Hb).
        -- simpl in E. by injection E as -> _.
        -- simpl in E. injection E as -> _.
           rewrite (Hb b) in Ha; [done|]. apply elem_of_cons; by left.
    + rewrite IH. split.
      * intros (before & after & -> & Hx & Hb).
        exists (a :: before), after. split_and!; [done..|].
        intros y [->|Hy]%elem_of_cons; [done|by apply Hb].
      * intros ([|b before] & after & E & Hx & Hb).
        -- simpl in E. injection E as -> _. congruence.
        -- simpl in E. injection E as -> ->.
           exists before, after. split_and!; [done..|].
           intros y Hy. apply Hb, elem_of_cons. by right.
Qed.

Lemma find_Some_elem (l : list A) (x : A) :
  find p l = Some x → x ∈ l ∧ p x = true.
Proof.
  intros (before & after & -> & Hx & _)%find_Some_first. split; [|done].
  apply elem_of_app. right. apply elem_of_cons. by left.
Qed.

Lemma find_None (l : list A) :
  find p l = None ↔ ∀ x, x ∈ l → p x = false.
Proof.
  induction l as [|a l IH]; simpl.
  - split; [|done]. intros _ x Hx. by apply elem_of_nil in Hx.
  - destruct (p a) eqn:Ha.
    + split; [done|]. intros H. rewrite (H a) in Ha; [done|].
      apply elem_of_cons; by left.
    + rewrite IH. split.
      * intros H x [->|Hx]%elem_of_cons; [done|by apply H].
      * intros H x Hx. apply H, elem_of_cons. by right.
Qed.

Lemma find_is_Some (l : list A) :
  is_Some (find p l) ↔ ∃ x, x ∈ l ∧ p x = true.
Proof.
  split.
  - intros [x Hx]. exists x. by apply find_Some_elem.
  - intros (x & Hx & Hp). destruct (find p l) eqn:E; [by eexists|].
    rewrite find_None in E. rewrite (E x Hx) in Hp. done.
Qed.
End Find.

(** ** Dropdown key resolution *)

Section Dropdown.
Import Settings.
Context {Σ T : Type} `{StrictEq T}.
Implicit Types (this : DropdownSetting Σ T) (o : DropdownOption T).

Lemma find_by_unique_key (opts : list (DropdownOption T)) o :
  NoDup (map key opts) → o ∈ opts →
  find (λ opt, bool_decide (key opt = key o)) opts = Some o.
Proof.
  induction opts as [|a opts IH]; simpl; intros Hnd Ho.
  - by apply elem_of_nil in Ho.
  - apply NoDup_cons in Hnd as [Ha Hnd].
    apply elem_of_cons in Ho as [->|Ho].
    + by rewrite bool_decide_eq_true_2.
    + rewrite bool_decide_eq_false_2; [by apply IH|].
      intros E. apply Ha. rewrite E. by apply list_elem_of_fmap_2.
Qed.

Lemma getKeyForValue_found this v :
  equality_comparable (values this) → v ∈ values this →
  ∃ o, o ∈ options this ∧ value o = v ∧ getKeyForValue this v = key o.
Proof.
  intros Hcmp (o & -> & Ho)%list_elem_of_fmap.
  destruct (find (λ opt, value opt === value o) (options this))
    as [o'|] eqn:E.
  - apply find_Some_elem in E as E'. destruct E' as [Ho' Hv].
    apply (Hcmp (value o')) in Hv; [|by apply list_elem_of_fmap_2].
    exists o'. split_and!; [done..|]. unfold getKeyForValue. by rewrite E.
  - rewrite find_None in E. specialize (E o Ho).
    assert (Hrefl : (value o === value o) = true).
    { apply (Hcmp (value o)); [by apply list_elem_of_fmap_2|done]. }
    congruence.
Qed.

Lemma getKeyForValue_fallback this x :
  equality_comparable (values this) → x ∉ values this →
  getKeyForValue this x =
    match options this with first :: _ => key first | [] => "" end.
Proof.
  intros Hcmp Hx. unfold getKeyForValue.
  destruct (find _ _) as [o|] eqn:E.
  - apply find_Some_elem in E as [Ho Hv].
    apply (Hcmp (value o)) in Hv; [|by apply list_elem_of_fmap_2].
    destruct Hx. rewrite <- Hv. by apply list_elem_of_fmap_2.
  - by destruct (options this).
Qed.
End Dropdown.


Section DropdownClaims.
Import Settings.
Context {Σ T : Type} `{StrictEq T}.
Implicit Types (this : DropdownSetting Σ T) (o : DropdownOption T).

(** C2.  Take a dropdown as the data model has it: the keys of its
    options are pairwise distinct and its values can be compared for
    equality.  Then [getValueForKey (getKeyForValue v)] returns [v] for
    every value [v] that occurs in the options; for a value that occurs
    in no option [getKeyForValue] returns the key of the first option;
    and when there are no options it returns the empty key.  That the
    values are pairwise distinct, as the claim supposes, is not
    needed. *)
Theorem key_value_round_trip this :
  NoDup (keys this) → equality_comparable (values this) →
  (∀ v σ, v ∈ values this →
      getValueForKey this (getKeyForValue this v) σ = (Return v, σ)) ∧
  (∀ x first rest, options this = first :: rest → x ∉ values this →
      getKeyForValue this x = key first) ∧
  (options this = [] → ∀ x, getKeyForValue this x = "").
Proof.
  intros Hkeys Hcmp. split_and!.
  - intros v σ Hv.
    destruct (getKeyForValue_found this v Hcmp Hv) as (o & Ho & <- & ->).
    unfold getValueForKey.
    by rewrite (find_by_unique_key (options this) o Hkeys Ho).
  - intros x first rest E Hx.
    rewrite (getKeyForValue_fallback this x Hcmp Hx). by rewrite E.
  - intros E x. unfold getKeyForValue. by rewrite E.
Qed.

(** C7.  [getValueForKey k] returns the value of the first option whose
    key is [k] when there is one; it throws exactly when no option has
    the key [k]; and the change handler of the dropdown does not swallow
    the error: it ends with the same error, before the setter or the
    observer has run. *)
Theorem getValueForKey_lookup this (k : string) (σ : Σ) :
  (∀ v, getValueForKey this k σ = (Return v, σ) ↔
        ∃ before o after,
          options this = before ++ o :: after ∧ key o = k ∧ value o = v ∧
          ∀ o', o' ∈ before → key o' ≠ k) ∧
  ((∃ o, o ∈ options this ∧ key o = k) →
    ∃ o, o ∈ options this ∧ key o = k ∧
         getValueForKey this k σ = (Return (value o), σ)) ∧
  ((∃ msg, result (getValueForKey this k) σ = Throw msg) ↔
    ∀ o, o ∈ options this → key o ≠ k) ∧
  ((∀ o, o ∈ options this → key o ≠ k) →
    getValueForKey this k σ = (Throw ("No option found for key: " +:+ k), σ) ∧
    DropdownSetting_onChange this k σ
      = (Throw ("No option found for key: " +:+ k), σ)).
Proof.
  set (p := λ opt : DropdownOption T, bool_decide (key opt = k)).
  assert (Hnone : find p (options this) = None ↔
                  ∀ o, o ∈ options this → key o ≠ k).
  { rewrite find_None. apply forall_proper; intros o.
    unfold p. by rewrite bool_decide_eq_false. }
  assert (Hrun : ∀ o, find p (options this) = Some o →
                      getValueForKey this k σ = (Return (value o), σ)).
  { intros o E. unfold getValueForKey. fold p. by rewrite E. }
  split_and!.
  - intros v. split.
    + unfold getValueForKey. fold p.
      destruct (find p (options this)) as [o|] eqn:E; [|done].
      intros [= <-]. apply find_Some_first in E
        as (before & after & E & Hk & Hb).
      exists before, o, after. split_and!; [done| |done|].
      * by apply bool_decide_eq_true in Hk.
      * intros o' Ho'. specialize (Hb o' Ho').
        by apply bool_decide_eq_false in Hb.
    + intros (before & o & after & E & Hk & <- & Hb).
      apply Hrun, find_Some_first. exists before, after.
      split_and!; [done| |].
      * by apply bool_decide_eq_true.
      * intros o' Ho'. apply bool_decide_eq_false. by apply Hb.
  - intros (o & Ho & Hk).
    destruct (find p (options this)) as [o'|] eqn:E.
    + apply find_Some_elem in E as E'. destruct E' as [Ho' Hk'].
      apply bool_decide_eq_true in Hk'. exists o'. split_and!; auto.
    + by destruct (proj1 Hnone eq_refl o Ho).
  - rewrite <- Hnone. unfold result, getValueForKey. fold p.
    destruct (find p (options this)); simpl; split.
    + by intros [msg ?].
    + done.
    + done.
    + intros _. by eexists.
  - intros Hk. apply Hnone in Hk.
    unfold DropdownSetting_onChange, bind, getValueForKey. fold p.
    by rewrite Hk.
Qed.
End DropdownClaims.

(** Why the data model wants the keys to be unique: with a key used
    twice, the key of the second option resolves to the value of the
    first, also when the values are pairwise distinct. *)
Lemma round_trip_needs_unique_keys :
  NoDup (Settings.values shared_key_dropdown) ∧
  2%nat ∈ Settings.values shared_key_dropdown ∧
  Settings.getValueForKey shared_key_dropdown
    (Settings.getKeyForValue shared_key_dropdown 2%nat) tt
  = (Return 1%nat, tt) ∧
  Settings.getValueForKey shared_key_dropdown
    (Settings.getKeyForValue shared_key_dropdown 2%nat) tt
  ≠ (Return 2%nat, tt).
Proof.
  split_and!.
  - apply (bool_decide_unpack _). by vm_compute.
  - apply (bool_decide_unpack _). by vm_compute.
  - by vm_compute.
  - by vm_compute.
Qed.

(** And why the values have to be comparable: [NaN] is not [===] to
    itself, so an option that carries it is never found and the first
    key is shown for it. *)
Lemma nan_is_not_found :
  NoDup (Settings.keys nan_dropdown) ∧
  Settings.NaN ∈ Settings.values nan_dropdown ∧
  Settings.getKeyForValue nan_dropdown Settings.NaN = "one" ∧
  Settings.getValueForKey nan_dropdown
    (Settings.getKeyForValue nan_dropdown Settings.NaN) tt
  = (Return (Settings.Num 1), tt).
Proof.
  split_and!.
  - apply (bool_decide_unpack _). by vm_compute.
  - apply elem_of_cons. right. apply elem_of_cons. by left.
  - by vm_compute.
  - by vm_compute.
Qed.

Lemma string_equality_comparable (vs : list string) :
  Settings.equality_comparable vs.
Proof. intros x _ y. apply String.eqb_eq. Qed.

Lemma key_value_round_trip_witness :
  NoDup (Settings.keys ThemeSetting) ∧
  Settings.equality_comparable (Settings.values ThemeSetting) ∧
  (∀ v σ, v ∈ Settings.values ThemeSetting →
      Settings.getValueForKey ThemeSetting
        (Settings.getKeyForValue ThemeSetting v) σ = (Return v, σ)).
Proof.
  assert (H : NoDup (Settings.keys ThemeSetting))
    by (apply (bool_decide_unpack _); by vm_compute).
  split_and!; [exact H|apply string_equality_comparable|].
  exact (proj1 (key_value_round_trip ThemeSetting H
                  (string_equality_comparable _))).
Defined.

(** ** Commit before notify *)

Section CommitBeforeNotify.
Import Settings.
Context {Σ number T : Type} `{StrictEq T}.

Lemma commit_and_notify_run {V} (this : BaseSetting Σ V) (v : V) :
  commits_then_notifies (Σ:=Σ) this v
    (set_value this v ;; current ← get_value this; notify this current).
Proof.
  intros σ committed. unfold bind, set_value, get_value, notify, modify, gets.
  simpl. by destruct (_onChange this).
Qed.

(** C3.  In each of the five variants the change handler installed by
    [display] first writes the reported value through the setter and
    then calls the observer with the value read back through the
    getter, in the world the setter has produced; so when the accessor
    gives back what was written, the observer receives the new value
    and the getter returns it while the observer runs.  The dropdown
    handler commits and passes on the value its key resolves to, not
    the key. *)
Theorem commit_before_notify :
  (∀ (this : ToggleSetting) σ0 v,
      commits_then_notifies (Σ:=Σ) this v
        (handler (ToggleSetting_display this σ0) this v)) ∧
  (∀ (this : SliderSetting Σ number) σ0 v,
      commits_then_notifies (Σ:=Σ) this v
        (handler (SliderSetting_display this σ0) this v)) ∧
  (∀ (this : TextInputSetting Σ) σ0 v,
      commits_then_notifies (Σ:=Σ) this v
        (handler (TextInputSetting_display this σ0) this v)) ∧
  (∀ (this : TextAreaSetting Σ) σ0 v,
      commits_then_notifies (Σ:=Σ) this v
        (handler (TextAreaSetting_display this σ0) this v)) ∧
  (∀ (this : DropdownSetting Σ T) σ0 k o,
      find (λ opt, bool_decide (key opt = k)) (options this) = Some o →
      commits_then_notifies (Σ:=Σ) this (value o)
        (handler (DropdownSetting_display this σ0) this k)) ∧
  (∀ V (this : BaseSetting Σ V) v run σ observer,
      commits_then_notifies (Σ:=Σ) this v run →
      _onChange this = Some observer →
      value_get this (value_set this v σ) = v →
      run σ = (Return tt, observer v (value_set this v σ))).
Proof.
  split_and!.
  - intros. apply commit_and_notify_run.
  - intros. apply commit_and_notify_run.
  - intros. apply commit_and_notify_run.
  - intros. apply commit_and_notify_run.
  - intros this σ0 k o E σ committed. simpl.
    unfold DropdownSetting_onChange, bind at 1, getValueForKey.
    rewrite E. simpl. apply commit_and_notify_run.
  - intros V this v run σ observer Hrun Hobs Hlaw.
    rewrite (Hrun σ). simpl. by rewrite Hobs, Hlaw.
Qed.
End CommitBeforeNotify.

(** ** The monad *)

Section Monad.
Context {W A B : Type}.

Lemma bind_Return (c : M W A) (k : A → M W B) (w w' : W) (a : A) :
  c w = (Return a, w') → bind c k w = k a w'.
Proof. unfold bind. by intros ->. Qed.

Lemma bind_Throw (c : M W A) (k : A → M W B) (w w' : W) msg :
  c w = (Throw msg, w') → bind c k w = (Throw msg, w').
Proof. unfold bind. by intros ->. Qed.

Lemma exec_bind (c : M W A) (k : A → M W B) (w w' : W) (a : A) :
  c w = (Return a, w') → exec (bind c k) w = exec (k a) w'.
Proof. unfold exec. intros H. by rewrite (bind_Return _ _ _ _ _ H). Qed.

Lemma run_eta (c : M W A) (w : W) : c w = (result c w, exec c w).
Proof. unfold result, exec. by destruct (c w). Qed.
End Monad.

(** ** Activation *)

Section Activation.
Import Tabs TabFacts.
Implicit Types (w : World) (tab a r : loc).

Lemma activateTab_returns tab w : result (activateTab tab) w = Return tt.
Proof.
  by destruct w as [ts [a|] [bs|] [c|] el σ l].
Qed.

Lemma activateTab_run tab w :
  activateTab tab w = (Return tt, exec (activateTab tab) w).
Proof. by rewrite (run_eta (activateTab tab) w), activateTab_returns. Qed.

Lemma activateTab_tabs tab w : tabs (exec (activateTab tab) w) = tabs w.
Proof.
  by destruct w as [ts [a|] [bs|] [c|] el σ l].
Qed.

Lemma activateTab_activeTab tab w :
  activeTab (exec (activateTab tab) w) = Some tab.
Proof.
  by destruct w as [ts [a|] [bs|] [c|] el σ l].
Qed.

Lemma activateTab_containerEl tab w :
  containerEl (exec (activateTab tab) w) = containerEl w.
Proof.
  by destruct w as [ts [a|] [bs|] [c|] el σ l].
Qed.

(** The store after an activation: the page that was active, if any, is
    flagged inactive, then the activated page is flagged active. *)
Lemma activateTab_store tab w :
  store (exec (activateTab tab) w) =
    flagged tab true
      (match activeTab w with
       | Some a => flagged a false (store w)
       | None => store w
       end).
Proof.
  by destruct w as [ts [a|] [bs|] [c|] el σ l].
Qed.

Lemma activateTab_contentContainer tab w :
  contentContainer (exec (activateTab tab) w) =
    option_map (λ _, [tab]) (contentContainer w).
Proof.
  by destruct w as [ts [a|] [bs|] [c|] el σ l].
Qed.

(** The calls of an activation, each with the store it sees. *)
Lemma activateTab_log tab w :
  let σ1 := match activeTab w with
            | Some a => flagged a false (store w)
            | None => store w
            end in
  let σ2 := flagged tab true σ1 in
  log (exec (activateTab tab) w) =
    log w
    ++ match activeTab w with
       | Some a => [{| callee := a; invoked := OnDeactivate;
                       store_at_call := σ1 |}]
       | None => []
       end
    ++ [{| callee := tab; invoked := OnActivate; store_at_call := σ2 |}]
    ++ match contentContainer w with
       | Some _ => [{| callee := tab; invoked := Display;
                       store_at_call := σ2 |}]
       | None => []
       end.
Proof.
  destruct w as [ts [a|] [bs|] [c|] el σ l]; cbn;
    by rewrite <- ?app_assoc.
Qed.

Lemma activateTab_tabContainer tab w :
  tabContainer (exec (activateTab tab) w) =
    option_map
      (imap (restyle (set_store (λ _, store (exec (activateTab tab) w)) w)))
      (tabContainer w).
Proof.
  by destruct w as [ts [a|] [bs|] [c|] el σ l].
Qed.
End Activation.

Section Lifecycle.
Import Tabs TabFacts.
Implicit Types (w : World) (tab a b r : loc).

Lemma new_calls_activateTab tab w :
  let σ1 := match activeTab w with
            | Some a => flagged a false (store w)
            | None => store w
            end in
  let σ2 := flagged tab true σ1 in
  new_calls (activateTab tab) w =
    match activeTab w with
    | Some a => [{| callee := a; invoked := OnDeactivate;
                    store_at_call := σ1 |}]
    | None => []
    end
    ++ [{| callee := tab; invoked := OnActivate; store_at_call := σ2 |}]
    ++ match contentContainer w with
       | Some _ => [{| callee := tab; invoked := Display;
                       store_at_call := σ2 |}]
       | None => []
       end.
Proof.
  intros σ1 σ2. unfold new_calls. rewrite activateTab_log.
  by rewrite drop_app_length.
Qed.

Lemma isActive_flagged page (flag : bool) σ r :
  isActive (flagged page flag σ r) = if decide (page = r) then flag
                                  else isActive (σ r).
Proof.
  unfold flagged. destruct (decide (page = r)) as [->|Hne].
  - by rewrite fn_lookup_insert.
  - by rewrite fn_lookup_insert_ne.
Qed.

Lemma name_flagged page (flag : bool) σ r :
  _name (flagged page flag σ r) = _name (σ r).
Proof.
  unfold flagged. destruct (decide (page = r)) as [->|Hne].
  - by rewrite fn_lookup_insert.
  - by rewrite fn_lookup_insert_ne.
Qed.

Lemma activateTab_name tab w r :
  _name (store (exec (activateTab tab) w) r) = _name (store w r).
Proof.
  rewrite activateTab_store, name_flagged.
  destruct (activeTab w); [by rewrite name_flagged|done].
Qed.

Lemma hide_run w :
  PluginSettingsTab_hide w =
    (Return tt,
     match activeTab w with
     | Some a =>
         set_log (λ l, l ++ [{| callee := a; invoked := OnDeactivate;
                                store_at_call := flagged a false (store w) |}])
           (set_store (flagged a false) w)
     | None => w
     end).
Proof. by destruct w as [ts [a|] bs c el σ l]. Qed.

(** The settings tab with the built-in registry has the same [hide]. *)
Lemma BuiltinTabs_hide_same : BuiltinTabs.hide = PluginSettingsTab_hide.
Proof. reflexivity. Qed.

(** C6.  When [b] is activated while another page [a] is active, the
    calls into page code are [a.onDeactivate()], then [b.onActivate()],
    then, once the manager has been displayed, [b.display(content)];
    and every [display] call among them sees [a.isActive = false] and
    [b.isActive = true]. *)
Theorem activation_order w a b :
  activeTab w = Some a → a ≠ b →
  map signature (new_calls (activateTab b) w) =
    [(a, OnDeactivate); (b, OnActivate)]
    ++ match contentContainer w with
       | Some _ => [(b, Display)]
       | None => []
       end ∧
  ∀ c, c ∈ new_calls (activateTab b) w → invoked c = Display →
       callee c = b ∧
       isActive (store_at_call c a) = false ∧
       isActive (store_at_call c b) = true.
Proof.
  intros Ha Hab. rewrite new_calls_activateTab, Ha. split.
  - by destruct (contentContainer w).
  - intros c Hc Hd. simpl in Hc.
    apply elem_of_cons in Hc as [->|Hc]; [done|].
    apply elem_of_cons in Hc as [->|Hc]; [done|].
    destruct (contentContainer w); [|by apply elem_of_nil in Hc].
    apply list_elem_of_singleton in Hc as ->. simpl.
    rewrite !isActive_flagged.
    repeat case_decide; try done; congruence.
Qed.

(** C5, as amended.  Activating the page that is already active does
    run the deactivate step, which only asks that some page is active:
    the page is flagged inactive and its [onDeactivate] is called with
    the flag down; then the flag is raised again, [onActivate] is
    called and, once the manager has been displayed, the page is
    displayed into the emptied content region. *)
Theorem reactivation_runs_everything w a :
  activeTab w = Some a →
  (∃ cD cA,
      new_calls (activateTab a) w =
        [cD; cA] ++ match contentContainer w with
                    | Some _ => [{| callee := a; invoked := Display;
                                    store_at_call := store_at_call cA |}]
                    | None => []
                    end ∧
      signature cD = (a, OnDeactivate) ∧
      isActive (store_at_call cD a) = false ∧
      signature cA = (a, OnActivate) ∧
      isActive (store_at_call cA a) = true) ∧
  isActive (store (exec (activateTab a) w) a) = true ∧
  activeTab (exec (activateTab a) w) = Some a ∧
  contentContainer (exec (activateTab a) w)
    = option_map (λ _, [a]) (contentContainer w).
Proof.
  intros Ha. split_and!.
  - rewrite new_calls_activateTab, Ha. simpl.
    exists {| callee := a; invoked := OnDeactivate;
              store_at_call := flagged a false (store w) |},
           {| callee := a; invoked := OnActivate;
              store_at_call := flagged a true (flagged a false (store w)) |}.
    split; [reflexivity|]. simpl. rewrite !isActive_flagged.
    split_and!; try done; by repeat case_decide.
  - rewrite activateTab_store, isActive_flagged. by case_decide.
  - apply activateTab_activeTab.
  - apply activateTab_contentContainer.
Qed.

(** C9.  [hide] flags the active page inactive and calls its
    [onDeactivate], but leaves [activeTab] pointing at it; the next
    activation, of whatever page, therefore calls [onDeactivate] on
    that page once more, with its flag already down. *)
Theorem hide_keeps_activeTab w a :
  activeTab w = Some a →
  let hidden := exec PluginSettingsTab_hide w in
  isActive (store hidden a) = false ∧
  map signature (new_calls PluginSettingsTab_hide w) = [(a, OnDeactivate)] ∧
  activeTab hidden = Some a ∧
  result getActiveTab hidden = Return (Some a) ∧
  ∀ t, ∃ c rest,
    new_calls (activateTab t) hidden = c :: rest ∧
    signature c = (a, OnDeactivate) ∧
    isActive (store_at_call c a) = false ∧
    map signature (new_calls (PluginSettingsTab_hide ;; activateTab t) w) =
      [(a, OnDeactivate); (a, OnDeactivate); (t, OnActivate)]
      ++ match contentContainer w with
         | Some _ => [(t, Display)]
         | None => []
         end.
Proof.
  intros Ha hidden.
  assert (Hh : PluginSettingsTab_hide w = (Return tt, hidden))
    by (unfold hidden, exec; by rewrite hide_run).
  assert (E : hidden =
    set_log (λ l, l ++ [{| callee := a; invoked := OnDeactivate;
                           store_at_call := flagged a false (store w) |}])
            (set_store (flagged a false) w)).
  { unfold hidden, exec. by rewrite hide_run, Ha. }
  assert (Hact : activeTab hidden = Some a) by (by rewrite E).
  split_and!.
  - rewrite E. simpl. rewrite isActive_flagged. by case_decide.
  - unfold new_calls. fold hidden. rewrite E. simpl.
    by rewrite drop_app_length.
  - done.
  - unfold result, getActiveTab, gets. simpl. by rewrite Hact.
  - intros t. rewrite new_calls_activateTab, Hact. simpl.
    eexists _, _. split_and!; [done..| |].
    + simpl. rewrite isActive_flagged. by case_decide.
    + unfold new_calls. rewrite (exec_bind _ _ _ _ _ Hh).
      rewrite activateTab_log, Hact.
      rewrite E at 1 2. simpl.
      rewrite <- app_assoc, drop_app_length. simpl.
      replace (contentContainer hidden) with (contentContainer w)
        by (by rewrite E).
      by destruct (contentContainer w).
Qed.
End Lifecycle.

(** C5, as stated, fails: after the example settings tab has been opened
    "General" (page 0) is active, and activating it again calls its
    [onDeactivate], with its flag lowered, before [onActivate]. *)
Lemma reactivation_calls_onDeactivate :
  Tabs.activeTab opened_ExampleSettingsTab = Some 0%nat ∧
  map TabFacts.signature
      (TabFacts.new_calls (Tabs.activateTab 0%nat) opened_ExampleSettingsTab)
    = [(0%nat, Tabs.OnDeactivate); (0%nat, Tabs.OnActivate);
       (0%nat, Tabs.Display)] ∧
  map (λ c, Tabs.isActive (Tabs.store_at_call c 0%nat))
      (TabFacts.new_calls (Tabs.activateTab 0%nat) opened_ExampleSettingsTab)
    = [false; true; true] ∧
  ¬ (∀ c, c ∈ TabFacts.new_calls (Tabs.activateTab 0%nat)
                                 opened_ExampleSettingsTab →
          TabFacts.signature c ≠ (0%nat, Tabs.OnDeactivate)).
Proof.
  assert (Ha : Tabs.activeTab opened_ExampleSettingsTab = Some 0%nat)
    by (by vm_compute).
  split_and!; [exact Ha|by vm_compute..|].
  intros H.
  pose proof (new_calls_activateTab 0%nat opened_ExampleSettingsTab) as E.
  rewrite Ha in E.
  apply (H {| Tabs.callee := 0%nat; Tabs.invoked := Tabs.OnDeactivate;
              Tabs.store_at_call :=
                TabFacts.flagged 0%nat false
                  (Tabs.store opened_ExampleSettingsTab) |});
    [|reflexivity].
  rewrite E. apply elem_of_cons. by left.
Qed.

Lemma activation_order_witness :
  Tabs.activeTab opened_ExampleSettingsTab = Some 0%nat ∧ 0%nat ≠ 2%nat ∧
  map TabFacts.signature
      (TabFacts.new_calls (Tabs.activateTab 2%nat) opened_ExampleSettingsTab)
    = [(0%nat, Tabs.OnDeactivate); (2%nat, Tabs.OnActivate)]
      ++ match Tabs.contentContainer opened_ExampleSettingsTab with
         | Some _ => [(2%nat, Tabs.Display)]
         | None => []
         end.
Proof.
  assert (Ha : Tabs.activeTab opened_ExampleSettingsTab = Some 0%nat)
    by (by vm_compute).
  assert (Hne : 0%nat ≠ 2%nat) by lia.
  split_and!; [exact Ha|exact Hne|].
  exact (proj1 (activation_order opened_ExampleSettingsTab 0%nat 2%nat Ha Hne)).
Defined.

Lemma reactivation_runs_everything_witness :
  Tabs.activeTab opened_ExampleSettingsTab = Some 0%nat ∧
  Tabs.isActive (Tabs.store (exec (Tabs.activateTab 0%nat)
                                  opened_ExampleSettingsTab) 0%nat) = true.
Proof.
  assert (Ha : Tabs.activeTab opened_ExampleSettingsTab = Some 0%nat)
    by (by vm_compute).
  split; [exact Ha|].
  exact (proj1 (proj2
    (reactivation_runs_everything opened_ExampleSettingsTab 0%nat Ha))).
Defined.

Lemma hide_keeps_activeTab_witness :
  Tabs.activeTab opened_ExampleSettingsTab = Some 0%nat ∧
  Tabs.activeTab (exec Tabs.PluginSettingsTab_hide opened_ExampleSettingsTab)
    = Some 0%nat.
Proof.
  assert (Ha : Tabs.activeTab opened_ExampleSettingsTab = Some 0%nat)
    by (by vm_compute).
  split; [exact Ha|].
  exact (proj1 (proj2 (proj2
    (hide_keeps_activeTab opened_ExampleSettingsTab 0%nat Ha)))).
Defined.

(** ** Display *)

Section Display.
Import Tabs TabFacts.
Implicit Types (w : World) (tab a r : loc).

Lemma forEach_createTabButton (ts : list loc) w :
  forEach createTabButton ts w =
    (Return tt,
     set_tabContainer
       (option_map (λ bs, bs ++ map (tab_button (store w)) ts)
                   (tabContainer w)) w).
Proof.
  revert w. induction ts as [|t ts IH]; intros w.
  - destruct w as [? ? [bs|] ? ? ? ?]; simpl; unfold ret, set_tabContainer;
      simpl; by rewrite ?app_nil_r.
  - simpl. unfold bind at 1. unfold createTabButton at 1, modify.
    rewrite IH. destruct w as [? ? [bs|] ? ? ? ?]; simpl;
      unfold set_tabContainer; simpl; by rewrite <- ?app_assoc.
Qed.

Lemma render_run w :
  render w =
    match tabs w with
    | first :: _ => activateTab first (strip_built w)
    | [] => (Return tt, strip_built w)
    end.
Proof.
  unfold render.
  do 5 (erewrite bind_Return; [|reflexivity]).
  erewrite bind_Return; [|apply forEach_createTabButton].
  erewrite bind_Return; [|reflexivity].
  match goal with |- context [set_tabContainer ?t ?w0] =>
    replace (set_tabContainer t w0) with (strip_built w)
  end.
  - simpl. by destruct (tabs w).
  - destruct w as [ts a bs c el σ l].
    unfold strip_built, set_tabContainer, set_contentContainer,
      set_containerEl. simpl. by rewrite <- app_assoc.
Qed.

(** [display] on an empty registry: the error, and the world untouched. *)
Lemma display_empty_registry w :
  tabs w = [] →
  display w = (Throw "No tabs have been added to the manager", w).
Proof. intros E. unfold display, bind, gets. by rewrite E. Qed.

Lemma display_run w first rest :
  tabs w = first :: rest →
  display w = activateTab first (strip_built (set_containerEl (λ _, []) w)).
Proof.
  intros E. unfold display, bind at 1, gets at 1. rewrite E. simpl.
  unfold bind at 1, modify at 1. rewrite render_run. simpl. by rewrite E.
Qed.

(** The revision with the built-in registry: on an empty registry the
    container has been emptied when the error is raised ... *)
Lemma BuiltinTabs_display_empty_registry w :
  tabs w = [] →
  BuiltinTabs.display w =
    (Throw "No tabs have been added to the settings tab",
     set_containerEl (λ _, []) w).
Proof.
  intros E. unfold BuiltinTabs.display, bind, modify, gets. simpl.
  by rewrite E.
Qed.

(** ... and on a registry with pages it does what the manager does. *)
Lemma BuiltinTabs_display_run w first rest :
  tabs w = first :: rest → BuiltinTabs.display w = display w.
Proof.
  intros E. rewrite (display_run w first rest E).
  unfold BuiltinTabs.display, bind at 1, modify at 1.
  unfold bind at 1, gets at 1. simpl. rewrite E. simpl.
  rewrite render_run. simpl. by rewrite E.
Qed.
End Display.

(** ** One active page *)

Section SingleActive.
Import Tabs TabFacts.
Context `{JS : StringBuiltins}.
Implicit Types (w : World) (tab a r t : loc) (ts : list loc).

Lemma fresh_flags_owned w :
  (∀ r, r ∈ tabs w → isActive (store w r) = false) → flags_owned w.
Proof. intros H r Hr Hact. by rewrite (H r Hr) in Hact. Qed.

Lemma last_activated_app l k :
  last_activated (l ++ k) =
    foldl (λ acc c, match invoked c with
                    | OnActivate => Some (callee c)
                    | _ => acc
                    end) (last_activated l) k.
Proof. unfold last_activated. by rewrite foldl_app. Qed.

Lemma activateTab_switches w t :
  flags_owned w → t ∈ tabs w →
  switched_to (exec (activateTab t) w) t.
Proof.
  intros Hown Ht. split_and!.
  - apply activateTab_activeTab.
  - split; rewrite activateTab_tabs; [done|].
    intros r Hr. rewrite activateTab_store, isActive_flagged.
    case_decide as Htr; [by split|].
    split; [|by intros ->].
    intros Hact. exfalso.
    destruct (activeTab w) as [a|] eqn:Ha.
    + rewrite isActive_flagged in Hact. case_decide as Har; [done|].
      specialize (Hown r Hr Hact). congruence.
    + specialize (Hown r Hr Hact). congruence.
  - rewrite activateTab_log. simpl. rewrite last_activated_app.
    destruct (activeTab w), (contentContainer w); reflexivity.
Qed.

Lemma switched_to_flags_owned w a : switched_to w a → flags_owned w.
Proof.
  intros (Ha & [_ Hone] & _) r Hr Hact. apply Hone in Hact; [|done].
  by subst.
Qed.

Lemma restyle_keeps_click w (bs : list TabButton) :
  map btn_click (imap (restyle w) bs) = map btn_click bs.
Proof.
  change (map btn_click (imap (restyle w) bs))
    with (btn_click <$> imap (restyle w) bs).
  rewrite fmap_imap, <- imap_const. apply imap_ext.
  intros i b _. simpl. unfold restyle. by destruct (tabs w !! i).
Qed.

Lemma activateTab_buttons_match w t :
  buttons_match w → buttons_match (exec (activateTab t) w).
Proof.
  intros (bs & Hbs & Hclick). unfold buttons_match.
  rewrite activateTab_tabContainer, activateTab_tabs, Hbs. simpl.
  eexists. split; [done|]. by rewrite restyle_keeps_click.
Qed.

Lemma setActiveTab_run (index : Z) w :
  setActiveTab index w =
    match (if ((0 <=? index)%Z && (index <? Z.of_nat (length (tabs w)))%Z)%bool
           then tabs w !! Z.to_nat index else None) with
    | Some tab => activateTab tab w
    | None => (Return tt, w)
    end.
Proof.
  unfold setActiveTab, bind, gets. simpl.
  destruct (_ && _)%bool; [|done]. by destruct (tabs w !! Z.to_nat index).
Qed.

Lemma setActiveTabById_run (id : string) w :
  setActiveTabById id w =
    match find (λ t, String.eqb (get_id (store w t)) id) (tabs w) with
    | Some tab => activateTab tab w
    | None => (Return tt, w)
    end.
Proof.
  unfold setActiveTabById, bind, gets. simpl. by destruct (find _ _).
Qed.

Lemma click_run (i : nat) w :
  click i w =
    match tabContainer w ≫= (λ bs, bs !! i) with
    | Some button => activateTab (btn_click button) w
    | None => (Return tt, w)
    end.
Proof. unfold click, bind, gets. simpl. by destruct (_ ≫= _). Qed.

(** Every request either leaves the world alone or activates a
    registered page. *)
Lemma serve_cases (q : request) w :
  buttons_match w → well_formed (tabs w) q →
  serve q w = (Return tt, w) ∨
  ∃ t, t ∈ tabs w ∧ serve q w = activateTab t w.
Proof.
  intros (bs & Hbs & Hclick) Hq. destruct q as [t|index|id|i]; simpl.
  - right. by exists t.
  - rewrite setActiveTab_run. destruct (_ && _)%bool; [|by left].
    destruct (tabs w !! Z.to_nat index) as [t|] eqn:E; [|by left].
    right. exists t. split; [|done]. by eapply list_elem_of_lookup_2.
  - rewrite setActiveTabById_run.
    destruct (find _ _) as [t|] eqn:E; [|by left].
    right. exists t. split; [|done]. by apply find_Some_elem in E as [? _].
  - rewrite click_run, Hbs. simpl.
    destruct (bs !! i) as [b|] eqn:E; [|by left].
    right. exists (btn_click b). split; [|done].
    rewrite <- Hclick. apply list_elem_of_fmap_2.
    by eapply list_elem_of_lookup_2.
Qed.

Lemma serve_keeps (q : request) w a ts :
  switched_to w a → buttons_match w → tabs w = ts → well_formed ts q →
  ∃ w' a', serve q w = (Return tt, w') ∧
           switched_to w' a' ∧ buttons_match w' ∧ tabs w' = ts.
Proof.
  intros Hsw Hbm <- Hq.
  destruct (serve_cases q w Hbm Hq) as [E|(t & Ht & E)]; rewrite E.
  - by exists w, a.
  - rewrite activateTab_run. exists (exec (activateTab t) w), t.
    split_and!; [done| | |].
    + apply activateTab_switches; [by eapply switched_to_flags_owned|done].
    + by apply activateTab_buttons_match.
    + apply activateTab_tabs.
Qed.

Lemma forEach_serve_keeps (qs : list request) w a ts :
  switched_to w a → buttons_match w → tabs w = ts →
  Forall (well_formed ts) qs →
  ∃ w' a', forEach serve qs w = (Return tt, w') ∧
           switched_to w' a' ∧ buttons_match w' ∧ tabs w' = ts.
Proof.
  revert w a. induction qs as [|q qs IH]; intros w a Hsw Hbm Hts Hqs.
  - by exists w, a.
  - apply Forall_cons in Hqs as [Hq Hqs].
    destruct (serve_keeps q w a ts Hsw Hbm Hts Hq)
      as (w1 & a1 & E1 & Hsw1 & Hbm1 & Hts1).
    destruct (IH w1 a1 Hsw1 Hbm1 Hts1 Hqs)
      as (w2 & a2 & E2 & Hsw2 & Hbm2 & Hts2).
    exists w2, a2. split_and!; [|done..].
    simpl. by rewrite (bind_Return _ _ _ _ _ E1).
Qed.

(** After [display] the first page is the one active page. *)
Lemma display_switches w first rest :
  tabs w = first :: rest → flags_owned w →
  ∃ w', display w = (Return tt, w') ∧
        switched_to w' first ∧ buttons_match w' ∧ tabs w' = tabs w ∧
        containerEl w' = [Div "obskit-settings-tab-container";
                          Div "obskit-settings-tab-content"] ∧
        contentContainer w' = Some [first].
Proof.
  intros E Hown. rewrite (display_run w first rest E), activateTab_run.
  set (pre := strip_built (set_containerEl (λ _, []) w)).
  exists (exec (activateTab first) pre). split_and!; [done| | | | |].
  - apply activateTab_switches.
    + intros r Hr Hact. by apply Hown.
    + simpl. rewrite E. apply elem_of_cons. by left.
  - apply activateTab_buttons_match. eexists. split; [done|]. simpl.
    rewrite <- list_fmap_compose. by rewrite list_fmap_id.
  - by rewrite activateTab_tabs.
  - by rewrite activateTab_containerEl.
  - by rewrite activateTab_contentContainer.
Qed.
Lemma display_keeps_names w first rest r :
  tabs w = first :: rest →
  _name (store (exec display w) r) = _name (store w r).
Proof.
  intros E. unfold exec. rewrite (display_run w first rest E), activateTab_run.
  simpl. by rewrite activateTab_name.
Qed.

(** [find] with a test that decides [P] picks the head of the elements
    that satisfy [P]. *)
Lemma find_head_filter {A} (p : A → bool) (P : A → Prop)
    `{∀ x, Decision (P x)} (l : list A) :
  (∀ x, p x = true ↔ P x) → find p l = head (filter P l).
Proof.
  intros Hp. induction l as [|x l IH]; simpl; [done|].
  destruct (p x) eqn:E.
  - rewrite filter_cons_True; [done|]. by apply Hp.
  - rewrite filter_cons_False; [done|]. rewrite <- Hp. congruence.
Qed.

(** Each request does what it asks for: it activates its target, and it
    does nothing when it has none. *)
Lemma serve_target (q : request) w :
  buttons_match w →
  serve q w = match target w q with
              | Some t => activateTab t w
              | None => (Return tt, w)
              end.
Proof.
  intros (bs & Hbs & Hclick). destruct q as [t|index|id|i]; simpl.
  - done.
  - rewrite setActiveTab_run. case_decide as Hin.
    + replace (0 <=? index)%Z with true by (symmetry; apply Z.leb_le; lia).
      replace (index <? Z.of_nat (length (tabs w)))%Z with true
        by (symmetry; apply Z.ltb_lt; lia).
      done.
    + destruct (0 <=? index)%Z eqn:H0; [|done].
      destruct (index <? Z.of_nat (length (tabs w)))%Z eqn:H1; [|done].
      apply Z.leb_le in H0. apply Z.ltb_lt in H1. lia.
  - rewrite setActiveTabById_run.
    by rewrite (find_head_filter _ (λ t, get_id (store w t) = id) _
                  (λ t, String.eqb_eq _ _)).
  - rewrite click_run, Hbs. simpl. rewrite <- Hclick.
    change (map ?f ?l) with (f <$> l). rewrite list_lookup_fmap.
    by destruct (bs !! i).
Qed.

Lemma target_registered (q : request) w t :
  well_formed (tabs w) q → target w q = Some t → t ∈ tabs w.
Proof.
  destruct q as [t'|index|id|i]; simpl; intros Hq E.
  - by injection E as <-.
  - case_decide; [|done]. by eapply list_elem_of_lookup_2.
  - apply head_Some_elem_of in E. by apply list_elem_of_filter in E as [_ ?].
  - by eapply list_elem_of_lookup_2.
Qed.

Lemma target_stable (q : request) w w' :
  tabs w' = tabs w → (∀ r, _name (store w' r) = _name (store w r)) →
  target w' q = target w q.
Proof.
  intros Hts Hname. destruct q as [t'|index|id|i]; simpl; rewrite ?Hts; try done.
  f_equal. apply list_filter_iff. intros t. unfold get_id. by rewrite Hname.
Qed.

(** A sequence of requests leaves the page asked for last as the one
    active page. *)
Lemma forEach_serve_requested (qs : list request) w0 w a :
  switched_to w a → buttons_match w → tabs w = tabs w0 →
  (∀ r, _name (store w r) = _name (store w0 r)) →
  Forall (well_formed (tabs w0)) qs →
  ∃ w', forEach serve qs w = (Return tt, w') ∧
        switched_to w' (requested w0 a qs) ∧ tabs w' = tabs w0.
Proof.
  revert w a. induction qs as [|q qs IH]; intros w a Hsw Hbm Hts Hname Hqs.
  - by exists w.
  - apply Forall_cons in Hqs as [Hq Hqs].
    assert (Hstep : ∃ w1, serve q w = (Return tt, w1) ∧
                          switched_to w1 (default a (target w0 q)) ∧
                          buttons_match w1 ∧ tabs w1 = tabs w0 ∧
                          ∀ r, _name (store w1 r) = _name (store w0 r)).
    { rewrite (serve_target q w Hbm), (target_stable q w0 w Hts Hname).
      destruct (target w0 q) as [t|] eqn:E; simpl.
      - exists (exec (activateTab t) w). rewrite activateTab_run.
        split_and!; [done| | | |].
        + apply activateTab_switches; [by eapply switched_to_flags_owned|].
          rewrite Hts. by eapply target_registered.
        + by apply activateTab_buttons_match.
        + by rewrite activateTab_tabs.
        + intros r. by rewrite activateTab_name.
      - by exists w. }
    destruct Hstep as (w1 & E1 & Hsw1 & Hbm1 & Hts1 & Hname1).
    destruct (IH w1 _ Hsw1 Hbm1 Hts1 Hname1 Hqs) as (w2 & E2 & Hsw2 & Hts2).
    exists w2. split_and!; [|done..].
    simpl. by rewrite (bind_Return _ _ _ _ _ E1).
Qed.
End SingleActive.

Section TabClaims.
Import Tabs TabFacts.
Context `{JS : StringBuiltins}.
Implicit Types (w : World) (tab a r t : loc) (ts : list loc).

(** C1.  Take a manager whose registry starts with [first] and whose
    pages have had their flags written by the manager alone, display
    it, and then make any sequence of [activateTab] (on registered
    pages, as the manager does), [setActiveTab], [setActiveTabById]
    calls and button clicks.  After each call, that is after every
    prefix of the sequence, the page [a] asked for most recently (the
    target of the last call of the prefix that hits a page, [first]
    when there is none) is registered, it is the only registered page
    with [isActive = true], it is the page of the latest [onActivate]
    call, and it is the manager's [activeTab]. *)
Theorem single_active_page w first rest (qs : list request) (n : nat) :
  tabs w = first :: rest → flags_owned w →
  Forall (well_formed (tabs w)) qs →
  let a := requested w first (take n qs) in
  ∃ w',
    (display ;; forEach serve (take n qs)) w = (Return tt, w') ∧
    (BuiltinTabs.display ;; forEach serve (take n qs)) w = (Return tt, w') ∧
    a ∈ tabs w' ∧
    (∀ r, r ∈ tabs w' → (isActive (store w' r) = true ↔ r = a)) ∧
    last_activated (log w') = Some a ∧
    activeTab w' = Some a.
Proof.
  intros E Hown Hqs a.
  destruct (display_switches w first rest E Hown)
    as (w1 & E1 & Hsw1 & Hbm1 & Hts1 & _).
  assert (Hname1 : ∀ r, _name (store w1 r) = _name (store w r)).
  { intros r. rewrite <- (display_keeps_names w first rest r E).
    unfold exec. by rewrite E1. }
  destruct (forEach_serve_requested (take n qs) w w1 first
              Hsw1 Hbm1 Hts1 Hname1 (Forall_take _ n _ Hqs))
    as (w2 & E2 & (Hact & [Hin Hone] & Hlast) & _).
  exists w2. fold a in Hact, Hin, Hone, Hlast. split_and!; [| |done..].
  - by rewrite (bind_Return _ _ _ _ _ E1).
  - rewrite <- (BuiltinTabs_display_run w first rest E) in E1.
    by rewrite (bind_Return _ _ _ _ _ E1).
Qed.

(** C8.  After [display] on a manager with the pages [p1; p2; p3],
    three different objects whose flags only the manager has written,
    and without any other activation, [p1] is active and [p2] and [p3]
    are not.  The settings tab with the built-in registry does the
    same. *)
Theorem first_page_default w (p1 p2 p3 : loc) :
  tabs w = [p1; p2; p3] → p1 ≠ p2 → p1 ≠ p3 → flags_owned w →
  ∃ w', display w = (Return tt, w') ∧
        BuiltinTabs.display w = (Return tt, w') ∧
        activeTab w' = Some p1 ∧
        isActive (store w' p1) = true ∧
        isActive (store w' p2) = false ∧
        isActive (store w' p3) = false.
Proof.
  intros E H12 H13 Hown.
  destruct (display_switches w p1 [p2; p3] E Hown)
    as (w' & Hrun & (Hact & [Hin Hone] & _) & _ & Hts & _).
  rewrite E in Hts. exists w'. split_and!; [done| |done| | |].
  - by rewrite (BuiltinTabs_display_run w p1 [p2; p3] E).
  - apply Hone; [done|done].
  - apply not_true_iff_false. intros H.
    apply (Hone p2) in H; [congruence|]. rewrite Hts.
    apply elem_of_cons. right. apply elem_of_cons. by left.
  - apply not_true_iff_false. intros H.
    apply (Hone p3) in H; [congruence|]. rewrite Hts.
    do 2 (apply elem_of_cons; right). apply elem_of_cons. by left.
Qed.
End TabClaims.

(** The manager's own [display] keeps the promise of C4: with an empty
    registry it raises the error and nothing has changed, neither the
    container nor the two regions. *)
Lemma manager_display_guard (w : Tabs.World) :
  Tabs.tabs w = [] →
  Tabs.display w = (Throw "No tabs have been added to the manager", w) ∧
  Tabs.PluginSettingsTab_display w
    = (Throw "No tabs have been added to the manager", w).
Proof. intros E. split; by apply display_empty_registry. Qed.

(** C4.  The settings tab with the built-in registry does not keep it:
    displayed with no page registered, in a container that holds two
    nodes of the host, it raises its error only after it has emptied the
    container. *)
Theorem builtin_display_empties_container :
  Tabs.tabs new_SettingsTabManager = [] ∧
  Tabs.containerEl new_SettingsTabManager
    = [Tabs.HostNode 0; Tabs.HostNode 1] ∧
  result BuiltinTabs.display new_SettingsTabManager
    = Throw "No tabs have been added to the settings tab" ∧
  Tabs.containerEl (exec BuiltinTabs.display new_SettingsTabManager) = [] ∧
  Tabs.tabContainer (exec BuiltinTabs.display new_SettingsTabManager) = None ∧
  Tabs.contentContainer (exec BuiltinTabs.display new_SettingsTabManager)
    = None.
Proof. split_and!; by vm_compute. Qed.

Lemma example_flags_owned : TabFacts.flags_owned ExampleSettingsTab.
Proof. apply fresh_flags_owned. intros r _. by destruct r as [|[|[|r]]]. Qed.

(** On the example tab the first request of the session asks for
    "Advanced", the third for "General". *)
Lemma example_requested :
  TabFacts.requested (JS:=AsciiText.builtins) ExampleSettingsTab 0%nat
    (take 1 example_session) = 2%nat ∧
  TabFacts.requested (JS:=AsciiText.builtins) ExampleSettingsTab 0%nat
    (take 3 example_session) = 0%nat ∧
  TabFacts.requested (JS:=AsciiText.builtins) ExampleSettingsTab 0%nat
    example_session = 2%nat.
Proof. split_and!; by vm_compute. Qed.

Lemma example_session_well_formed :
  Forall (TabFacts.well_formed (Tabs.tabs ExampleSettingsTab)) example_session.
Proof.
  unfold example_session. repeat apply Forall_cons_2; try exact I.
  - change (2%nat ∈ [0; 1; 2]%nat). set_solver.
  - apply Forall_nil_2.
Qed.

Lemma single_active_page_witness :
  Tabs.tabs ExampleSettingsTab = [0; 1; 2]%nat ∧
  TabFacts.flags_owned ExampleSettingsTab ∧
  Forall (TabFacts.well_formed (Tabs.tabs ExampleSettingsTab))
         example_session ∧
  ∃ w',
    (Tabs.display ;;
     forEach (TabFacts.serve (JS:=AsciiText.builtins)) (take 1 example_session))
      ExampleSettingsTab = (Return tt, w') ∧
    (BuiltinTabs.display ;;
     forEach (TabFacts.serve (JS:=AsciiText.builtins)) (take 1 example_session))
      ExampleSettingsTab = (Return tt, w') ∧
    TabFacts.requested (JS:=AsciiText.builtins) ExampleSettingsTab 0%nat
      (take 1 example_session) ∈ Tabs.tabs w' ∧
    (∀ r, r ∈ Tabs.tabs w' →
          (Tabs.isActive (Tabs.store w' r) = true ↔
           r = TabFacts.requested (JS:=AsciiText.builtins) ExampleSettingsTab
                 0%nat (take 1 example_session))) ∧
    TabFacts.last_activated (Tabs.log w')
      = Some (TabFacts.requested (JS:=AsciiText.builtins) ExampleSettingsTab
                0%nat (take 1 example_session)) ∧
    Tabs.activeTab w'
      = Some (TabFacts.requested (JS:=AsciiText.builtins) ExampleSettingsTab
                0%nat (take 1 example_session)).
Proof.
  assert (E : Tabs.tabs ExampleSettingsTab = [0; 1; 2]%nat) by (by vm_compute).
  split_and!;
    [exact E|exact example_flags_owned|exact example_session_well_formed|].
  exact (single_active_page (JS:=AsciiText.builtins) ExampleSettingsTab
           0%nat [1; 2]%nat example_session 1
           E example_flags_owned example_session_well_formed).
Defined.

Lemma first_page_default_witness :
  Tabs.tabs ExampleSettingsTab = [0; 1; 2]%nat ∧
  ∃ w', Tabs.display ExampleSettingsTab = (Return tt, w') ∧
        BuiltinTabs.display ExampleSettingsTab = (Return tt, w') ∧
        Tabs.activeTab w' = Some 0%nat ∧
        Tabs.isActive (Tabs.store w' 0%nat) = true ∧
        Tabs.isActive (Tabs.store w' 1%nat) = false ∧
        Tabs.isActive (Tabs.store w' 2%nat) = false.
Proof.
  assert (E : Tabs.tabs ExampleSettingsTab = [0; 1; 2]%nat) by (by vm_compute).
  split; [exact E|].
  exact (first_page_default ExampleSettingsTab 0%nat 1%nat 2%nat E
           ltac:(lia) ltac:(lia) example_flags_owned).
Defined.

(** ** The logger registry *)

Section LoggerRegistry.
Import Logging.
Implicit Types (w : World) (l : loc) (level : LogLevel).

Lemma getLogger_registered name w l :
  loggers w !! name = Some l → getLogger name w = (Return l, w).
Proof. intros E. unfold getLogger, bind, gets. simpl. by rewrite E. Qed.

Lemma getLogger_fresh name w :
  loggers w !! name = None →
  ∃ w', getLogger name w = (Return (next_loc w), w') ∧
        loggers w' = <[name := next_loc w]> (loggers w) ∧
        heap w' (next_loc w)
          = {| _name := name; _logLevel := globalLogLevel w |} ∧
        globalLogLevel w' = globalLogLevel w.
Proof.
  intros E. eexists. split.
  - unfold getLogger, bind, gets. simpl. rewrite E. reflexivity.
  - simpl. split_and!; [done| |done]. by rewrite fn_lookup_insert.
Qed.

Lemma getLogger_registers name w :
  ∃ l w', getLogger name w = (Return l, w') ∧ loggers w' !! name = Some l ∧
          ∀ other l', loggers w !! other = Some l' →
                      loggers w' !! other = Some l'.
Proof.
  destruct (loggers w !! name) as [l|] eqn:E.
  - exists l, w. by rewrite (getLogger_registered name w l E).
  - destruct (getLogger_fresh name w E) as (w' & Hrun & Hreg & _).
    exists (next_loc w), w'. rewrite Hreg. split_and!; [done| |].
    + by rewrite lookup_insert_eq.
    + intros other l' Ho. rewrite lookup_insert_ne; [done|]. congruence.
Qed.

(** The loop of [setGlobalLogLevel]. *)
Lemma assign_all (ls : list loc) level w :
  ∃ w', forEach (λ logger, modify (assign_logLevel logger level)) ls w
          = (Return tt, w') ∧
        loggers w' = loggers w ∧
        globalLogLevel w' = globalLogLevel w ∧
        (∀ l, l ∈ ls → _logLevel (heap w' l) = level) ∧
        (∀ l, l ∉ ls → heap w' l = heap w l) ∧
        (∀ l, _name (heap w' l) = _name (heap w l)).
Proof.
  revert w. induction ls as [|x ls IH]; intros w.
  - exists w. split_and!; try done. intros l Hl. by apply elem_of_nil in Hl.
  - destruct (IH (assign_logLevel x level w))
      as (w' & Hrun & Hreg & Hglob & Hin & Hout & Hname).
    exists w'. split_and!.
    + simpl. unfold bind at 1, modify at 1. exact Hrun.
    + by rewrite Hreg.
    + by rewrite Hglob.
    + intros l Hl. destruct (decide (l ∈ ls)) as [Hls|Hls]; [by apply Hin|].
      apply elem_of_cons in Hl as [->|Hl]; [|done].
      rewrite (Hout x Hls). simpl. by rewrite fn_lookup_insert.
    + intros l Hl. apply not_elem_of_cons in Hl as [Hne Hl].
      rewrite (Hout l Hl). simpl. by rewrite fn_lookup_insert_ne.
    + intros l. rewrite Hname. simpl.
      destruct (decide (x = l)) as [->|Hne].
      * by rewrite fn_lookup_insert.
      * by rewrite fn_lookup_insert_ne.
Qed.

Lemma setGlobalLogLevel_run level w :
  ∃ w', setGlobalLogLevel level w = (Return tt, w') ∧
        globalLogLevel w' = level ∧
        loggers w' = loggers w ∧
        (∀ name l, loggers w !! name = Some l →
                   _logLevel (heap w' l) = level) ∧
        (∀ l, (∀ name, loggers w !! name ≠ Some l) → heap w' l = heap w l).
Proof.
  unfold setGlobalLogLevel, bind at 1, modify at 1, bind at 1, gets at 1.
  simpl.
  match goal with
  | |- ∃ w', forEach _ ?ls ?w0 = _ ∧ _ =>
      destruct (assign_all ls level w0)
        as (w' & Hrun & Hreg & Hglob & Hin & Hout & _)
  end.
  exists w'. split_and!; [done..| |].
  - intros name l E. apply Hin.
    apply (list_elem_of_fmap_2 snd _ (name, l)).
    by apply elem_of_map_to_list.
  - intros l Hl. rewrite Hout; [done|].
    intros ([name l'] & -> & Hin')%list_elem_of_fmap.
    apply elem_of_map_to_list in Hin'. by apply (Hl name).
Qed.

Lemma serve_keeps_registered (q : request) w name l :
  loggers w !! name = Some l →
  ∃ w', serve q w = (Return tt, w') ∧ loggers w' !! name = Some l.
Proof.
  intros E. destruct q as [other|level]; simpl.
  - destruct (getLogger_registers other w) as (l' & w' & Hrun & _ & Hkeep).
    exists w'. split; [|by apply Hkeep].
    by rewrite (bind_Return _ _ _ _ _ Hrun).
  - destruct (setGlobalLogLevel_run level w) as (w' & Hrun & _ & Hreg & _).
    exists w'. by rewrite Hreg.
Qed.

Lemma forEach_serve_keeps_registered (qs : list request) w name l :
  loggers w !! name = Some l →
  ∃ w', forEach serve qs w = (Return tt, w') ∧ loggers w' !! name = Some l.
Proof.
  revert w. induction qs as [|q qs IH]; intros w E.
  - by exists w.
  - destruct (serve_keeps_registered q w name l E) as (w1 & Hrun1 & E1).
    destruct (IH w1 E1) as (w2 & Hrun2 & E2).
    exists w2. split; [|done]. simpl.
    by rewrite (bind_Return _ _ _ _ _ Hrun1).
Qed.

(** C10.  [getLogger name] returns a logger that every later
    [getLogger name] returns again, whatever calls of [getLogger] and
    [setGlobalLogLevel] come in between; when the name was not yet
    registered the logger is a new object carrying the name and the
    global level of that moment; and [setGlobalLogLevel level] makes
    [level] the global level and the level of every logger in the
    registry, which itself does not change. *)
Theorem logger_registry w (name : string) level :
  (∃ l w1,
      getLogger name w = (Return l, w1) ∧
      (loggers w !! name = None →
         heap w1 l = {| _name := name; _logLevel := globalLogLevel w |}) ∧
      getLogger name w1 = (Return l, w1) ∧
      ∀ qs : list request, ∃ w2,
        forEach serve qs w1 = (Return tt, w2) ∧
        getLogger name w2 = (Return l, w2)) ∧
  (∃ w', setGlobalLogLevel level w = (Return tt, w') ∧
         globalLogLevel w' = level ∧
         result getGlobalLogLevel w' = Return level ∧
         loggers w' = loggers w ∧
         ∀ registered l, loggers w !! registered = Some l →
                         result (logLevel l) w' = Return level).
Proof.
  split.
  - destruct (getLogger_registers name w) as (l & w1 & Hrun & Hreg & _).
    exists l, w1. split_and!; [done| | |].
    + intros E. destruct (getLogger_fresh name w E) as (w' & Hrun' & _ & Hobj & _).
      rewrite Hrun in Hrun'. by injection Hrun' as -> ->.
    + by apply getLogger_registered.
    + intros qs.
      destruct (forEach_serve_keeps_registered qs w1 name l Hreg)
        as (w2 & Hrun2 & Hreg2).
      exists w2. split; [done|]. by apply getLogger_registered.
  - destruct (setGlobalLogLevel_run level w)
      as (w' & Hrun & Hglob & Hreg & Hin & _).
    exists w'. split_and!; [done..| |done|].
    + unfold result, getGlobalLogLevel, gets. simpl. by rewrite Hglob.
    + intros registered l E. unfold result, logLevel, gets. simpl.
      by rewrite (Hin registered l E).
Qed.
End LoggerRegistry.

(** ** The scenarios of the specification, run *)

Section Scenarios.
Import Tabs TabFacts.
#[local] Existing Instance AsciiText.builtins.

(** Three buttons in registration order, "General" shown and active. *)
Example scenario_display :
  let w := opened_ExampleSettingsTab in
  option_map (map btn_text) (tabContainer w)
    = Some ["General"; "Performance"; "Advanced"] ∧
  option_map (map btn_active) (tabContainer w) = Some [true; false; false] ∧
  contentContainer w = Some [0%nat] ∧
  map (λ p, isActive (store w p)) [0; 1; 2]%nat = [true; false; false] ∧
  map signature (log w) = [(0%nat, OnActivate); (0%nat, Display)].
Proof. split_and!; by vm_compute. Qed.

(** [setActiveTabById("advanced")]: "General" is deactivated once,
    "Advanced" activated once and shown. *)
Example scenario_switch :
  let w := exec (setActiveTabById "advanced") opened_ExampleSettingsTab in
  map (λ p, isActive (store w p)) [0; 1; 2]%nat = [false; false; true] ∧
  contentContainer w = Some [2%nat] ∧
  option_map (map btn_active) (tabContainer w) = Some [false; false; true] ∧
  map signature (new_calls (setActiveTabById "advanced")
                           opened_ExampleSettingsTab)
    = [(0%nat, OnDeactivate); (2%nat, OnActivate); (2%nat, Display)].
Proof. split_and!; by vm_compute. Qed.

Example scenario_ids :
  get_id (new_SettingsTabPage "General") = "general" ∧
  get_id (new_SettingsTabPage "Log  Level") = "log-level".
Proof. split; by vm_compute. Qed.

(** The slider bound to the refresh interval, 30 at first: the control
    reports 35; the bound value becomes 35 and the observer is handed
    35, in a world where the value is already 35. *)
Example scenario_slider :
  Settings.calls (Settings.SliderSetting_display RefreshIntervalSetting
                    (30%Z, []))
    = [Settings.setLimits 5%Z 300%Z 5%Z; Settings.setDynamicTooltip;
       Settings.setValue 30%Z] ∧
  Settings.handler (Settings.SliderSetting_display RefreshIntervalSetting
                      (30%Z, []))
    RefreshIntervalSetting 35%Z (30%Z, [])
    = (Return tt, (35%Z, [(35%Z, 35%Z)])).
Proof. split; by vm_compute. Qed.

(** A stale theme shows as the first option; choosing "dark" commits
    the value behind the key. *)
Example scenario_dropdown :
  Settings.calls (Settings.DropdownSetting_display ThemeSetting "retro")
    = [Settings.addOption "default" "Default";
       Settings.addOption "dark" "Dark";
       Settings.addOption "light" "Light";
       Settings.addOption "custom" "Custom";
       Settings.setValue "default"] ∧
  Settings.DropdownSetting_onChange ThemeSetting "dark" "retro"
    = (Return tt, "dark") ∧
  Settings.DropdownSetting_onChange ThemeSetting "sepia" "retro"
    = (Throw "No option found for key: sepia", "retro").
Proof. split_and!; by vm_compute. Qed.

(** The logger of the example plugin. *)
Example scenario_logger :
  let run :=
    (main ← Logging.getLogger "main";
     Logging.info main "Plugin loaded" [] ;;
     Logging.setGlobalLogLevel Logging.INFO ;;
     again ← Logging.getLogger "main";
     Logging.info again "Plugin loaded" [] ;;
     level ← Logging.logLevel again;
     ret (main, again, level)) in
  result run Logging.initial = Return (0%nat, 0%nat, Logging.INFO) ∧
  Logging.console (exec run Logging.initial)
    = [{| Logging.line_text := "[INFO] chopro:main -- Plugin loaded";
          Logging.line_args := [] |}].
Proof. split; by vm_compute. Qed.
End Scenarios.

(** * Further properties of the code *)

(** ** Page identifiers *)

Section Identifiers.
Import Tabs AsciiText IdFacts.
Context `{JS : StringBuiltins}.

Lemma lower_not_upper (c : ascii) : is_upper (lower c) = false.
Proof. destruct c as [[] [] [] [] [] [] [] []]; by vm_compute. Qed.

Lemma lower_fixes (c : ascii) : is_upper c = false → lower c = c.
Proof. destruct c as [[] [] [] [] [] [] [] []]; by vm_compute. Qed.

Lemma lower_space (c : ascii) : is_space (lower c) = is_space c.
Proof. destruct c as [[] [] [] [] [] [] [] []]; by vm_compute. Qed.

Lemma lower_ascii (c : ascii) : is_ascii (lower c) = is_ascii c.
Proof. destruct c as [[] [] [] [] [] [] [] []]; by vm_compute. Qed.

Lemma all_chars_impl (p q : ascii → bool) (s : string) :
  (∀ c, p c = true → q c = true) →
  all_chars p s = true → all_chars q s = true.
Proof.
  intros Hpq. induction s as [|c s IH]; simpl; [done|].
  intros [Hc Hs]%andb_true_iff. by rewrite (Hpq c Hc), IH.
Qed.

Lemma all_chars_app (p : ascii → bool) (s t : string) :
  all_chars p (s +:+ t) = all_chars p s && all_chars p t.
Proof.
  induction s as [|c s IH]; simpl; [done|]. by rewrite IH, andb_assoc.
Qed.

Lemma lower_all_lowered (s : string) :
  ascii_text s = true →
  all_chars (λ c, is_ascii c && negb (is_upper c)) (lower_all s) = true.
Proof.
  induction s as [|c s IH]; simpl; [done|].
  intros [Hc Hs]%andb_true_iff.
  by rewrite lower_ascii, Hc, lower_not_upper, IH.
Qed.

Lemma replace_runs_slug (in_run : bool) (s : string) :
  all_chars (λ c, is_ascii c && negb (is_upper c)) s = true →
  slug (replace_runs in_run s) = true.
Proof.
  revert in_run. induction s as [|c s IH]; intros in_run; simpl; [done|].
  intros [Hc Hs]%andb_true_iff.
  destruct (is_space c) eqn:Hsp.
  - destruct in_run; simpl; by apply IH.
  - unfold slug. simpl. rewrite Hc, Hsp. simpl. by apply IH.
Qed.

Lemma slug_ascii_text (s : string) : slug s = true → ascii_text s = true.
Proof.
  apply all_chars_impl. intros c Hc.
  by apply andb_true_iff in Hc as [[? _]%andb_true_iff _].
Qed.

Lemma lower_all_slug (s : string) : slug s = true → lower_all s = s.
Proof.
  induction s as [|c s IH]; simpl; [done|].
  unfold slug. simpl.
  intros [[[_ Hu]%andb_true_iff _]%andb_true_iff Hs]%andb_true_iff.
  apply negb_true_iff in Hu. rewrite (lower_fixes c Hu). f_equal. by apply IH.
Qed.

Lemma replace_runs_slug_id (s : string) :
  slug s = true → replace_runs false s = s.
Proof.
  induction s as [|c s IH]; simpl; [done|].
  unfold slug. simpl. intros [[_ Hsp]%andb_true_iff Hs]%andb_true_iff.
  apply negb_true_iff in Hsp. rewrite Hsp. f_equal. by apply IH.
Qed.

(** On an ASCII name the id is what the ASCII algorithms give. *)
Lemma get_id_ascii (page : SettingsTabPage) :
  ascii_conforming JS → ascii_text (_name page) = true →
  get_id page = replace_runs false (lower_all (_name page)).
Proof.
  intros Hconf Hname. unfold get_id.
  destruct (Hconf (_name page) Hname) as [-> _].
  destruct (Hconf (lower_all (_name page))) as [_ ->]; [|done].
  eapply all_chars_impl; [|by apply lower_all_lowered].
  intros c Hc. by apply andb_true_iff in Hc as [? _].
Qed.

Lemma get_id_ascii_slug (page : SettingsTabPage) :
  ascii_conforming JS → ascii_text (_name page) = true →
  slug (get_id page) = true.
Proof.
  intros Hconf Hname. rewrite (get_id_ascii page Hconf Hname).
  by apply replace_runs_slug, lower_all_lowered.
Qed.

(** X1.  The id of a page with an ASCII name holds no capital letter and
    no white space (and is ASCII itself), given that the built-ins do on
    ASCII text what the ASCII algorithms do. *)
Theorem id_is_slug (page : SettingsTabPage) :
  ascii_conforming JS → ascii_text (_name page) = true →
  slug (get_id page) = true.
Proof.
  intros Hconf Hname. rewrite (get_id_ascii page Hconf Hname).
  by apply replace_runs_slug, lower_all_lowered.
Qed.

(** X2.  Taking the id is idempotent on ASCII names: a page named by the
    id of a page with an ASCII name has that same id. *)
Theorem id_idempotent (page : SettingsTabPage) :
  ascii_conforming JS → ascii_text (_name page) = true →
  get_id (new_SettingsTabPage (get_id page)) = get_id page.
Proof.
  intros Hconf Hname.
  pose proof (get_id_ascii_slug page Hconf Hname) as Hslug.
  rewrite (get_id_ascii (new_SettingsTabPage (get_id page)) Hconf);
    [|by apply slug_ascii_text].
  simpl. by rewrite (lower_all_slug _ Hslug), (replace_runs_slug_id _ Hslug).
Qed.

Lemma lower_all_idempotent (s : string) : lower_all (lower_all s) = lower_all s.
Proof.
  induction s as [|c s IH]; simpl; [done|].
  by rewrite (lower_fixes _ (lower_not_upper c)), IH.
Qed.

Lemma lower_all_ascii (s : string) :
  ascii_text s = true → ascii_text (lower_all s) = true.
Proof.
  intros Hs. eapply all_chars_impl; [|by apply lower_all_lowered].
  intros c Hc. by apply andb_true_iff in Hc as [? _].
Qed.

Lemma replace_runs_extra_space (in_run : bool) (before after : string)
    (c d : ascii) :
  is_space c = true → is_space d = true →
  replace_runs in_run (lower_all (before +:+ String c (String d after)))
  = replace_runs in_run (lower_all (before +:+ String c after)).
Proof.
  intros Hc Hd. revert in_run.
  induction before as [|x before IH]; intros in_run; simpl.
  - rewrite !lower_space, Hc, Hd. by destruct in_run.
  - destruct (is_space (lower x)); [destruct in_run|]; by rewrite IH.
Qed.

(** X3.  Ids collide on ASCII names: a name and its lower-case form give
    the same id, and so do two names that differ only in that one has a
    further white-space character next to another one. *)
Theorem id_collisions (name before after : string) (c d : ascii) :
  ascii_conforming JS →
  (ascii_text name = true →
   get_id (new_SettingsTabPage (toLowerCase name))
     = get_id (new_SettingsTabPage name)) ∧
  (ascii_text (before +:+ String c (String d after)) = true →
   is_space c = true → is_space d = true →
   get_id (new_SettingsTabPage (before +:+ String c (String d after)))
     = get_id (new_SettingsTabPage (before +:+ String c after))).
Proof.
  intros Hconf. split.
  - intros Hname. destruct (Hconf name Hname) as [-> _].
    rewrite !(get_id_ascii _ Hconf); simpl; [|done|by apply lower_all_ascii].
    by rewrite lower_all_idempotent.
  - intros Hlong Hc Hd.
    assert (Hshort : ascii_text (before +:+ String c after) = true).
    { unfold ascii_text in *. rewrite all_chars_app in *. simpl in *.
      apply andb_true_iff in Hlong as [-> [-> [_ ->]%andb_true_iff]%andb_true_iff].
      done. }
    rewrite !(get_id_ascii _ Hconf); simpl; [|done..].
    by apply replace_runs_extra_space.
Qed.
End Identifiers.

Lemma ascii_builtins_conforming : IdFacts.ascii_conforming AsciiText.builtins.
Proof. by intros s _. Qed.

Lemma id_is_slug_witness :
  IdFacts.ascii_conforming AsciiText.builtins ∧
  IdFacts.ascii_text (Tabs._name (Tabs.new_SettingsTabPage "Log  Level")) = true ∧
  IdFacts.slug (Tabs.get_id (JS:=AsciiText.builtins)
                  (Tabs.new_SettingsTabPage "Log  Level")) = true.
Proof.
  assert (H : IdFacts.ascii_text
                (Tabs._name (Tabs.new_SettingsTabPage "Log  Level")) = true)
    by (by vm_compute).
  split_and!; [exact ascii_builtins_conforming|exact H|].
  exact (id_is_slug (JS:=AsciiText.builtins)
           (Tabs.new_SettingsTabPage "Log  Level")
           ascii_builtins_conforming H).
Defined.

Lemma id_idempotent_witness :
  IdFacts.ascii_conforming AsciiText.builtins ∧
  IdFacts.ascii_text (Tabs._name (Tabs.new_SettingsTabPage "Log  Level")) = true ∧
  Tabs.get_id (JS:=AsciiText.builtins)
    (Tabs.new_SettingsTabPage
       (Tabs.get_id (JS:=AsciiText.builtins)
          (Tabs.new_SettingsTabPage "Log  Level")))
  = Tabs.get_id (JS:=AsciiText.builtins)
      (Tabs.new_SettingsTabPage "Log  Level").
Proof.
  assert (H : IdFacts.ascii_text
                (Tabs._name (Tabs.new_SettingsTabPage "Log  Level")) = true)
    by (by vm_compute).
  split_and!; [exact ascii_builtins_conforming|exact H|].
  exact (id_idempotent (JS:=AsciiText.builtins)
           (Tabs.new_SettingsTabPage "Log  Level")
           ascii_builtins_conforming H).
Defined.

Lemma id_collisions_witness :
  IdFacts.ascii_conforming AsciiText.builtins ∧
  (IdFacts.ascii_text "General" = true →
   Tabs.get_id (JS:=AsciiText.builtins)
     (Tabs.new_SettingsTabPage
        (Tabs.toLowerCase (StringBuiltins:=AsciiText.builtins) "General"))
   = Tabs.get_id (JS:=AsciiText.builtins)
       (Tabs.new_SettingsTabPage "General")).
Proof.
  split; [exact ascii_builtins_conforming|].
  exact (proj1 (id_collisions (JS:=AsciiText.builtins)
                  "General" "Log" "Level" " "%char " "%char
                  ascii_builtins_conforming)).
Defined.

(** ** Registration and selection *)

Section Selection.
Import Tabs TabFacts.
Context `{JS : StringBuiltins}.
Implicit Types (w : World) (tab a r t : loc) (ts : list loc).

Lemma set_tabs_app ts1 ts2 w :
  set_tabs (λ ts, ts ++ ts2) (set_tabs (λ ts, ts ++ ts1) w)
  = set_tabs (λ ts, ts ++ ts1 ++ ts2) w.
Proof. destruct w. unfold set_tabs. simpl. by rewrite <- app_assoc. Qed.

Lemma addTabs_run ts w :
  addTabs ts w = (Return tt, set_tabs (λ old, old ++ ts) w).
Proof. reflexivity. Qed.

Lemma forEach_addTab ts w :
  forEach addTab ts w = (Return tt, set_tabs (λ old, old ++ ts) w).
Proof.
  revert w. induction ts as [|t ts IH]; intros w.
  - destruct w. unfold set_tabs. simpl. by rewrite app_nil_r.
  - simpl. erewrite bind_Return; [|reflexivity].
    rewrite IH. by rewrite set_tabs_app.
Qed.

(** X4.  [addTabs] registers the pages in the order given, after the
    pages already registered, keeping duplicates; it is the same as
    calling [addTab] on each page in turn, in both revisions; and it
    touches nothing but the registry. *)
Theorem addTabs_appends ts w :
  addTabs ts w = forEach addTab ts w ∧
  BuiltinTabs.addTabs ts w = addTabs ts w ∧
  result (addTabs ts ;; getTabs) w = Return (tabs w ++ ts) ∧
  let w' := exec (addTabs ts) w in
  activeTab w' = activeTab w ∧ tabContainer w' = tabContainer w ∧
  contentContainer w' = contentContainer w ∧
  containerEl w' = containerEl w ∧ store w' = store w ∧ log w' = log w.
Proof.
  split_and!; try done.
  - by rewrite forEach_addTab.
  - unfold BuiltinTabs.addTabs. apply (forEach_addTab ts w).
Qed.

(** X5.  [setActiveTab] checks its bounds: a negative index and an index
    at or beyond the number of pages change nothing and call nothing; an
    index inside the registry activates the page registered there. *)
Theorem setActiveTab_bounds (index : Z) w :
  ((index < 0 ∨ Z.of_nat (length (tabs w)) ≤ index)%Z →
     setActiveTab index w = (Return tt, w)) ∧
  (∀ (i : nat) t, index = Z.of_nat i → tabs w !! i = Some t →
     setActiveTab index w = activateTab t w).
Proof.
  split.
  - intros Hout. rewrite setActiveTab_run.
    destruct (0 <=? index)%Z eqn:H0; [|done].
    destruct (index <? Z.of_nat (length (tabs w)))%Z eqn:H1; [|done].
    apply Z.leb_le in H0. apply Z.ltb_lt in H1. lia.
  - intros i t -> Hi. rewrite setActiveTab_run.
    assert (Hlt : (i < length (tabs w))%nat) by (by eapply lookup_lt_Some).
    replace (0 <=? Z.of_nat i)%Z with true by (symmetry; apply Z.leb_le; lia).
    replace (Z.of_nat i <? Z.of_nat (length (tabs w)))%Z with true
      by (symmetry; apply Z.ltb_lt; lia).
    simpl. by rewrite Nat2Z.id, Hi.
Qed.

(** X6.  [setActiveTabById] activates the first registered page with the
    id, so of two pages with the same id only the one registered first
    can be reached by id; when no registered page has the id it changes
    nothing. *)
Theorem setActiveTabById_first_match (id : string) w :
  (∀ before t after,
     tabs w = before ++ t :: after →
     get_id (store w t) = id →
     (∀ r, r ∈ before → get_id (store w r) ≠ id) →
     setActiveTabById id w = activateTab t w) ∧
  ((∀ r, r ∈ tabs w → get_id (store w r) ≠ id) →
     setActiveTabById id w = (Return tt, w)).
Proof.
  split.
  - intros before t after E Ht Hb. rewrite setActiveTabById_run.
    assert (F : find (λ t0, String.eqb (get_id (store w t0)) id) (tabs w)
                = Some t).
    { apply find_Some_first. exists before, after. split_and!; [done| |].
      - by apply String.eqb_eq.
      - intros r Hr. apply String.eqb_neq. by apply Hb. }
    by rewrite F.
  - intros Hnone. rewrite setActiveTabById_run.
    assert (F : find (λ t0, String.eqb (get_id (store w t0)) id) (tabs w)
                = None).
    { apply find_None. intros r Hr. apply String.eqb_neq. by apply Hnone. }
    by rewrite F.
Qed.
End Selection.

(** ** The tab strip *)

Section Strip.
Import Tabs TabFacts StripFacts.
Implicit Types (w : World) (tab a r t : loc) (ts : list loc).

(** After an activation every button carries the flag of its page. *)
Lemma activateTab_restyles tab w (bs : list TabButton) :
  tabContainer w = Some bs → map btn_click bs = tabs w →
  ∃ bs', tabContainer (exec (activateTab tab) w) = Some bs' ∧
         map btn_click bs' = tabs w ∧
         map btn_text bs' = map btn_text bs ∧
         map btn_active bs'
           = map (λ t, isActive (store (exec (activateTab tab) w) t)) (tabs w).
Proof.
  intros Hbs Hclick. rewrite activateTab_tabContainer, Hbs. simpl.
  eexists. split; [done|]. split_and!.
  - by rewrite restyle_keeps_click.
  - apply list_eq. intros i.
    change (map btn_text ?l) with (btn_text <$> l).
    rewrite !list_lookup_fmap, list_lookup_imap.
    destruct (bs !! i) as [b|] eqn:Hb; [|done]. simpl. f_equal.
    unfold restyle. by destruct (tabs _ !! i).
  - apply list_eq. intros i.
    change (map ?f ?l) with (f <$> l).
    rewrite !list_lookup_fmap, list_lookup_imap.
    assert (Hi : tabs w !! i = btn_click <$> bs !! i).
    { rewrite <- Hclick. change (map ?f ?l) with (f <$> l).
      by rewrite list_lookup_fmap. }
    rewrite Hi. destruct (bs !! i) as [b|] eqn:Hb; [|done]. simpl. f_equal.
    unfold restyle. simpl. rewrite Hi. by simpl.
Qed.

Lemma activateTab_strip_faithful tab w :
  strip_faithful w ∨
    (∃ bs, tabContainer w = Some bs ∧ map btn_click bs = tabs w ∧
           map btn_text bs = map (λ t, get_name (store w t)) (tabs w)) →
  strip_faithful (exec (activateTab tab) w).
Proof.
  intros H.
  assert (∃ bs, tabContainer w = Some bs ∧ map btn_click bs = tabs w ∧
           map btn_text bs = map (λ t, get_name (store w t)) (tabs w))
    as (bs & Hbs & Hclick & Htext).
  { destruct H as [(bs & ? & ? & ? & _)|H]; [by exists bs|done]. }
  destruct (activateTab_restyles tab w bs Hbs Hclick)
    as (bs' & Hbs' & Hclick' & Htext' & Hactive').
  exists bs'. rewrite activateTab_tabs. split_and!; [done..| |done].
  rewrite Htext', Htext. apply map_ext. intros t.
  unfold get_name. by rewrite activateTab_name.
Qed.

Lemma display_strip w first rest :
  tabs w = first :: rest →
  ∃ w', display w = (Return tt, w') ∧ strip_faithful w' ∧
        tabs w' = tabs w ∧
        (∀ r, _name (store w' r) = _name (store w r)) ∧
        containerEl w' = [Div "obskit-settings-tab-container";
                          Div "obskit-settings-tab-content"] ∧
        contentContainer w' = Some [first].
Proof.
  intros E. rewrite (display_run w first rest E), activateTab_run.
  set (pre := strip_built (set_containerEl (λ _, []) w)).
  exists (exec (activateTab first) pre). split_and!; [done| | | | |].
  - apply activateTab_strip_faithful. right. eexists. split; [done|].
    simpl. split; rewrite <- list_fmap_compose; [|done].
    by rewrite list_fmap_id.
  - by rewrite activateTab_tabs.
  - intros r. by rewrite activateTab_name.
  - by rewrite activateTab_containerEl.
  - by rewrite activateTab_contentContainer.
Qed.

(** X7.  Whatever the container held and whatever had been rendered
    before, [display] on a non-empty registry leaves in the container
    exactly the strip and the content region, puts into the strip one
    button per registered page, in registration order, labelled with the
    name of the page and wired to it, highlights the buttons of the
    pages that are flagged active, and shows the first page alone in the
    content region.  The revision with the built-in registry does the
    same. *)
Theorem display_builds_strip w first rest :
  tabs w = first :: rest →
  ∃ w' bs,
    display w = (Return tt, w') ∧
    BuiltinTabs.display w = (Return tt, w') ∧
    containerEl w' = [Div "obskit-settings-tab-container";
                      Div "obskit-settings-tab-content"] ∧
    tabContainer w' = Some bs ∧
    map btn_click bs = tabs w ∧
    map btn_text bs = map (λ t, get_name (store w t)) (tabs w) ∧
    map btn_active bs = map (λ t, isActive (store w' t)) (tabs w) ∧
    contentContainer w' = Some [first].
Proof.
  intros E.
  destruct (display_strip w first rest E)
    as (w' & Hrun & (bs & Hbs & Hclick & Htext & Hactive) & Hts & Hname
        & Hel & Hcontent).
  exists w', bs. rewrite Hts in *. split_and!; try done.
  - by rewrite (BuiltinTabs_display_run w first rest E).
  - rewrite Htext. apply map_ext. intros t. unfold get_name.
    by rewrite Hname.
Qed.
End Strip.

Lemma display_builds_strip_witness :
  Tabs.tabs ExampleSettingsTab = [0; 1; 2]%nat ∧
  ∃ w' bs,
    Tabs.display ExampleSettingsTab = (Return tt, w') ∧
    BuiltinTabs.display ExampleSettingsTab = (Return tt, w') ∧
    Tabs.containerEl w' = [Tabs.Div "obskit-settings-tab-container";
                           Tabs.Div "obskit-settings-tab-content"] ∧
    Tabs.tabContainer w' = Some bs ∧
    map Tabs.btn_click bs = Tabs.tabs ExampleSettingsTab ∧
    map Tabs.btn_text bs
      = map (λ t, Tabs.get_name (Tabs.store ExampleSettingsTab t))
            (Tabs.tabs ExampleSettingsTab) ∧
    map Tabs.btn_active bs
      = map (λ t, Tabs.isActive (Tabs.store w' t))
            (Tabs.tabs ExampleSettingsTab) ∧
    Tabs.contentContainer w' = Some [0%nat].
Proof.
  assert (E : Tabs.tabs ExampleSettingsTab = [0; 1; 2]%nat) by (by vm_compute).
  split; [exact E|].
  exact (display_builds_strip ExampleSettingsTab 0%nat [1; 2]%nat E).
Defined.

Section StripSessions.
Import Tabs TabFacts StripFacts.
Context `{JS : StringBuiltins}.
Implicit Types (w : World) (tab a r t : loc) (ts : list loc).

Lemma strip_faithful_buttons_match w : strip_faithful w → buttons_match w.
Proof. intros (bs & Hbs & Hclick & _). by exists bs. Qed.

Lemma serve_keeps_strip (q : request) w a ts :
  switched_to w a → strip_faithful w → tabs w = ts →
  contentContainer w = Some [a] → well_formed ts q →
  ∃ w' a', serve q w = (Return tt, w') ∧ switched_to w' a' ∧
           strip_faithful w' ∧ tabs w' = ts ∧
           contentContainer w' = Some [a'].
Proof.
  intros Hsw Hstrip <- Hcontent Hq.
  destruct (serve_cases q w (strip_faithful_buttons_match w Hstrip) Hq)
    as [E|(t & Ht & E)]; rewrite E.
  - by exists w, a.
  - rewrite activateTab_run. exists (exec (activateTab t) w), t.
    split_and!; [done| | | |].
    + apply activateTab_switches; [by eapply switched_to_flags_owned|done].
    + apply activateTab_strip_faithful. by left.
    + apply activateTab_tabs.
    + by rewrite activateTab_contentContainer, Hcontent.
Qed.

Lemma forEach_serve_keeps_strip (qs : list request) w a ts :
  switched_to w a → strip_faithful w → tabs w = ts →
  contentContainer w = Some [a] → Forall (well_formed ts) qs →
  ∃ w' a', forEach serve qs w = (Return tt, w') ∧ switched_to w' a' ∧
           strip_faithful w' ∧ tabs w' = ts ∧
           contentContainer w' = Some [a'].
Proof.
  revert w a. induction qs as [|q qs IH]; intros w a Hsw Hst Hts Hc Hqs.
  - by exists w, a.
  - apply Forall_cons in Hqs as [Hq Hqs].
    destruct (serve_keeps_strip q w a ts Hsw Hst Hts Hc Hq)
      as (w1 & a1 & E1 & Hsw1 & Hst1 & Hts1 & Hc1).
    destruct (IH w1 a1 Hsw1 Hst1 Hts1 Hc1 Hqs)
      as (w2 & a2 & E2 & Hsw2 & Hst2 & Hts2 & Hc2).
    exists w2, a2. split_and!; [|done..].
    simpl. by rewrite (bind_Return _ _ _ _ _ E1).
Qed.

(** X8.  After [display] and after each further switch of pages the
    strip and the content region follow the active page: the buttons
    still stand for the registered pages in order, a button is
    highlighted exactly when its page is the active one, and the content
    region shows the active page alone. *)
Theorem strip_follows_active w (qs : list request) (n : nat) :
  tabs w ≠ [] → flags_owned w → Forall (well_formed (tabs w)) qs →
  ∃ w' a bs,
    (display ;; forEach serve (take n qs)) w = (Return tt, w') ∧
    activeTab w' = Some a ∧
    tabContainer w' = Some bs ∧
    map btn_click bs = tabs w ∧
    map btn_active bs = map (λ t, bool_decide (t = a)) (tabs w) ∧
    contentContainer w' = Some [a].
Proof.
  intros Hne Hown Hqs.
  destruct (tabs w) as [|first rest] eqn:E; [done|].
  destruct (display_switches w first rest E Hown)
    as (w1 & E1 & Hsw1 & _ & Hts1 & _ & Hc1).
  destruct (display_strip w first rest E)
    as (w1' & E1' & Hst1 & _).
  rewrite E1 in E1'. injection E1' as <-.
  rewrite E in Hts1.
  destruct (forEach_serve_keeps_strip (take n qs) w1 first (first :: rest)
              Hsw1 Hst1 Hts1 Hc1 (Forall_take _ n _ Hqs))
    as (w2 & a & E2 & (Hact & [Hin Hone] & _) & (bs & Hbs & Hclick & _ & Hstyle)
        & Hts2 & Hc2).
  exists w2, a, bs. rewrite Hts2 in *. split_and!; try done.
  - by rewrite (bind_Return _ _ _ _ _ E1).
  - rewrite Hstyle. apply map_ext_in. intros t Ht%list_elem_of_In.
    specialize (Hone t Ht). destruct (isActive (store w2 t)).
    + symmetry. apply bool_decide_eq_true. by apply Hone.
    + symmetry. apply bool_decide_eq_false. intros ->.
      destruct Hone as [_ Hb]. by specialize (Hb eq_refl).
Qed.

Lemma hide_flags_owned w :
  flags_owned w → flags_owned (exec PluginSettingsTab_hide w).
Proof.
  intros Hown r. unfold exec. rewrite hide_run. simpl.
  destruct (activeTab w) as [a|] eqn:Ha; simpl.
  - intros Hr Hact. rewrite isActive_flagged in Hact.
    case_decide; [done|]. by apply Hown.
  - intros Hr Hact. by apply Hown.
Qed.

(** X9.  [hide] leaves no registered page flagged active (when the flags
    were the manager's before), but it does not touch what has been
    rendered: the strip, with its highlighted button, the content region
    and the container stay as they were, and so does the registry. *)
Theorem hide_lowers_flags_only w :
  flags_owned w →
  let w' := exec PluginSettingsTab_hide w in
  (∀ r, r ∈ tabs w' → isActive (store w' r) = false) ∧
  tabs w' = tabs w ∧
  tabContainer w' = tabContainer w ∧
  contentContainer w' = contentContainer w ∧
  containerEl w' = containerEl w ∧
  ∀ r, _name (store w' r) = _name (store w r).
Proof.
  intros Hown w'. unfold w', exec. rewrite hide_run.
  destruct (activeTab w) as [a|] eqn:Ha; simpl.
  - split_and!; try done.
    + intros r Hr. rewrite isActive_flagged. case_decide; [done|].
      apply not_true_iff_false. intros Hact.
      specialize (Hown r Hr Hact). congruence.
    + intros r. apply name_flagged.
  - split_and!; try done.
    intros r Hr. apply not_true_iff_false. intros Hact.
    specialize (Hown r Hr Hact). congruence.
Qed.

(** A loop keeps what each of its steps keeps, also when a step throws. *)
Lemma forEach_exec_invariant {W A} (f : A → M W unit) (P : W → Prop)
    (Q : A → Prop) (l : list A) (u : W) :
  (∀ x v, Q x → P v → P (exec (f x) v)) →
  Forall Q l → P u → P (exec (forEach f l) u).
Proof.
  intros Hstep. revert u. induction l as [|x l IH]; intros u Hl Hu; [done|].
  apply Forall_cons in Hl as [Hx Hl].
  specialize (Hstep x u Hx Hu). unfold exec in *. simpl. unfold bind.
  destruct (f x u) as [[[]|msg] u1]; simpl in *; [by apply IH|done].
Qed.

Lemma serve_cases_any (q : request) w :
  strip_built_or_absent w → well_formed (tabs w) q →
  serve q w = (Return tt, w) ∨
  ∃ t, t ∈ tabs w ∧ serve q w = activateTab t w.
Proof.
  intros [Hnone|Hbm] Hq; [|by apply serve_cases].
  destruct q as [t|index|id|i]; simpl.
  - right. by exists t.
  - rewrite setActiveTab_run. destruct (_ && _)%bool; [|by left].
    destruct (tabs w !! Z.to_nat index) as [t|] eqn:E; [|by left].
    right. exists t. split; [|done]. by eapply list_elem_of_lookup_2.
  - rewrite setActiveTabById_run.
    destruct (find _ _) as [t|] eqn:E; [|by left].
    right. exists t. split; [|done]. by apply find_Some_elem in E as [? _].
  - left. by rewrite click_run, Hnone.
Qed.

Lemma handle_keeps (e : host_event) w ts :
  permitted ts e →
  flags_owned w ∧ strip_built_or_absent w ∧ tabs w = ts →
  let w' := exec (handle e) w in
  flags_owned w' ∧ strip_built_or_absent w' ∧ tabs w' = ts.
Proof.
  intros He (Hown & Hstrip & <-) w'. unfold w'. clear w'.
  destruct e as [| |q]; simpl.
  - unfold PluginSettingsTab_display.
    destruct (tabs w) as [|first rest] eqn:E.
    + unfold exec. by rewrite (display_empty_registry w E).
    + destruct (display_switches w first rest E Hown)
        as (w' & Hrun & Hsw & Hbm & Hts & _).
      unfold exec. rewrite Hrun. simpl. rewrite <- E. split_and!; [|by right|done].
      by eapply switched_to_flags_owned.
  - split_and!.
    + by apply hide_flags_owned.
    + unfold exec. rewrite hide_run.
      destruct (activeTab w); [|done].
      destruct Hstrip as [Hnone|(bs & Hbs & Hclick)]; [by left|].
      right. by exists bs.
    + unfold exec. rewrite hide_run. by destruct (activeTab w).
  - destruct (serve_cases_any q w Hstrip He) as [E|(t & Ht & E)];
      unfold exec; rewrite E; [done|].
    rewrite activateTab_run. simpl. split_and!.
    + eapply switched_to_flags_owned. by apply activateTab_switches.
    + destruct Hstrip as [Hnone|Hbm].
      * left. by rewrite activateTab_tabContainer, Hnone.
      * right. by apply activateTab_buttons_match.
    + apply activateTab_tabs.
Qed.

(** X10.  At most one registered page is flagged active at any time:
    whatever the host and the user do (opening the settings tab, also
    with an empty registry, closing it, switching pages by index, id or
    click, in any order), two registered pages that are flagged active
    are the same page, and it is the page the manager holds in
    [activeTab]. *)
Theorem at_most_one_active w (events : list host_event) :
  flags_owned w → strip_built_or_absent w →
  Forall (permitted (tabs w)) events →
  let w' := exec (forEach handle events) w in
  ∀ r1 r2, r1 ∈ tabs w' → r2 ∈ tabs w' →
           isActive (store w' r1) = true → isActive (store w' r2) = true →
           r1 = r2 ∧ activeTab w' = Some r1.
Proof.
  intros Hown Hstrip Hev w'.
  assert (Hinv : flags_owned w' ∧ strip_built_or_absent w' ∧ tabs w' = tabs w).
  { unfold w'.
    apply (forEach_exec_invariant handle
             (λ w0, flags_owned w0 ∧ strip_built_or_absent w0 ∧ tabs w0 = tabs w)
             (permitted (tabs w))); [|done|done].
    intros e w0 He Hw0. by apply handle_keeps. }
  destruct Hinv as (Hown' & _ & _).
  intros r1 r2 H1 H2 A1 A2.
  pose proof (Hown' r1 H1 A1) as E1. pose proof (Hown' r2 H2 A2) as E2.
  split; [congruence|done].
Qed.
End StripSessions.

Lemma strip_follows_active_witness :
  Tabs.tabs ExampleSettingsTab ≠ [] ∧
  TabFacts.flags_owned ExampleSettingsTab ∧
  Forall (TabFacts.well_formed (Tabs.tabs ExampleSettingsTab))
         example_session ∧
  ∃ w' a bs,
    (Tabs.display ;;
     forEach (TabFacts.serve (JS:=AsciiText.builtins)) (take 3 example_session))
      ExampleSettingsTab = (Return tt, w') ∧
    Tabs.activeTab w' = Some a ∧
    Tabs.tabContainer w' = Some bs ∧
    map Tabs.btn_click bs = Tabs.tabs ExampleSettingsTab ∧
    map Tabs.btn_active bs
      = map (λ t, bool_decide (t = a)) (Tabs.tabs ExampleSettingsTab) ∧
    Tabs.contentContainer w' = Some [a].
Proof.
  assert (H1 : Tabs.tabs ExampleSettingsTab ≠ []) by (by vm_compute).
  split_and!;
    [exact H1|exact example_flags_owned|exact example_session_well_formed|].
  exact (strip_follows_active (JS:=AsciiText.builtins) ExampleSettingsTab
           example_session 3 H1 example_flags_owned
           example_session_well_formed).
Defined.

Lemma opened_flags_owned : TabFacts.flags_owned opened_ExampleSettingsTab.
Proof.
  intros r Hr. change (Tabs.tabs opened_ExampleSettingsTab) with [0; 1; 2]%nat in Hr.
  destruct r as [|[|[|r]]]; [by vm_compute..|]. set_solver.
Qed.

Lemma hide_lowers_flags_only_witness :
  TabFacts.flags_owned opened_ExampleSettingsTab ∧
  ∀ r, r ∈ Tabs.tabs (exec Tabs.PluginSettingsTab_hide
                           opened_ExampleSettingsTab) →
       Tabs.isActive (Tabs.store (exec Tabs.PluginSettingsTab_hide
                                       opened_ExampleSettingsTab) r) = false.
Proof.
  split; [exact opened_flags_owned|].
  exact (proj1 (hide_lowers_flags_only opened_ExampleSettingsTab
                  opened_flags_owned)).
Defined.

Lemma at_most_one_active_witness :
  TabFacts.flags_owned ExampleSettingsTab ∧
  StripFacts.strip_built_or_absent ExampleSettingsTab ∧
  Forall (StripFacts.permitted (Tabs.tabs ExampleSettingsTab)) example_events ∧
  ∀ r1 r2,
    r1 ∈ Tabs.tabs (exec (forEach (StripFacts.handle (JS:=AsciiText.builtins))
                                  example_events) ExampleSettingsTab) →
    r2 ∈ Tabs.tabs (exec (forEach (StripFacts.handle (JS:=AsciiText.builtins))
                                  example_events) ExampleSettingsTab) →
    Tabs.isActive
      (Tabs.store (exec (forEach (StripFacts.handle (JS:=AsciiText.builtins))
                                 example_events) ExampleSettingsTab) r1)
      = true →
    Tabs.isActive
      (Tabs.store (exec (forEach (StripFacts.handle (JS:=AsciiText.builtins))
                                 example_events) ExampleSettingsTab) r2)
      = true →
    r1 = r2 ∧
    Tabs.activeTab (exec (forEach (StripFacts.handle (JS:=AsciiText.builtins))
                                  example_events) ExampleSettingsTab)
      = Some r1.
Proof.
  assert (H1 : StripFacts.strip_built_or_absent ExampleSettingsTab)
    by (left; by vm_compute).
  assert (H2 : Forall (StripFacts.permitted (Tabs.tabs ExampleSettingsTab))
                      example_events).
  { unfold example_events. repeat apply Forall_cons_2; try exact I.
    - change (1%nat ∈ [0; 1; 2]%nat). set_solver.
    - apply Forall_nil_2. }
  split_and!; [exact example_flags_owned|exact H1|exact H2|].
  exact (at_most_one_active (JS:=AsciiText.builtins) ExampleSettingsTab
           example_events example_flags_owned H1 H2).
Defined.

(** ** Before the first display, and pages added after it *)

Section Unrendered.
Import Tabs TabFacts StripFacts.
Context `{JS : StringBuiltins}.
Implicit Types (w : World) (tab a r t p : loc) (ts : list loc).

Lemma new_calls_nothing {A} (c : M World A) w :
  exec c w = w → new_calls c w = [].
Proof.
  intros E. unfold new_calls. rewrite E.
  rewrite <- (app_nil_r (log w)) at 2. apply drop_app_length.
Qed.

(** X11.  A page activated by its index before the manager has been
    displayed becomes the manager's active page, gets its flag and its
    [onActivate] call (after the [onDeactivate] of a page that was
    active), but it is not rendered: no [display] of a page is called
    and no region appears.  And the activation does not survive:
    [display] then activates the first page all the same, which ends up
    as the one active page, the page activated before being flagged
    inactive again unless it is the first. *)
Theorem activation_before_display w (i : nat) t first rest :
  tabs w = first :: rest → flags_owned w →
  tabContainer w = None → contentContainer w = None →
  tabs w !! i = Some t →
  let w1 := exec (setActiveTab (Z.of_nat i)) w in
  activeTab w1 = Some t ∧ isActive (store w1 t) = true ∧
  map signature (new_calls (setActiveTab (Z.of_nat i)) w)
    = match activeTab w with
      | Some a => [(a, OnDeactivate)]
      | None => []
      end ++ [(t, OnActivate)] ∧
  tabContainer w1 = None ∧ contentContainer w1 = None ∧
  containerEl w1 = containerEl w ∧
  ∃ w2, display w1 = (Return tt, w2) ∧
        activeTab w2 = Some first ∧ only_active w2 first ∧
        (t ≠ first → isActive (store w2 t) = false).
Proof.
  intros E Hown Hstrip Hcontent Hi w1.
  assert (Hrun : setActiveTab (Z.of_nat i) w = activateTab t w).
  { rewrite setActiveTab_run.
    assert (Hlt : (i < length (tabs w))%nat) by (by eapply lookup_lt_Some).
    replace (0 <=? Z.of_nat i)%Z with true by (symmetry; apply Z.leb_le; lia).
    replace (Z.of_nat i <? Z.of_nat (length (tabs w)))%Z with true
      by (symmetry; apply Z.ltb_lt; lia).
    simpl. by rewrite Nat2Z.id, Hi. }
  assert (Ht : t ∈ tabs w) by (by eapply list_elem_of_lookup_2).
  assert (Hw1 : w1 = exec (activateTab t) w) by (unfold w1, exec; by rewrite Hrun).
  assert (Hown1 : flags_owned w1).
  { rewrite Hw1. eapply switched_to_flags_owned. by apply activateTab_switches. }
  assert (E1 : tabs w1 = first :: rest) by (by rewrite Hw1, activateTab_tabs).
  split_and!.
  - rewrite Hw1. apply activateTab_activeTab.
  - rewrite Hw1, activateTab_store, isActive_flagged. by case_decide.
  - assert (Hnew : new_calls (setActiveTab (Z.of_nat i)) w
                   = new_calls (activateTab t) w).
    { unfold new_calls. fold w1. by rewrite Hw1. }
    rewrite Hnew, new_calls_activateTab, Hcontent.
    by destruct (activeTab w).
  - by rewrite Hw1, activateTab_tabContainer, Hstrip.
  - by rewrite Hw1, activateTab_contentContainer, Hcontent.
  - by rewrite Hw1, activateTab_containerEl.
  - destruct (display_switches w1 first rest E1 Hown1)
      as (w2 & Hrun2 & (Hact & [Hin Hone] & _) & _ & Hts2 & _).
    exists w2. split_and!; [done..|].
    intros Hne. apply not_true_iff_false. intros Hflag.
    apply Hone in Hflag; [done|]. by rewrite Hts2, E1, <- E.
Qed.

(** X12.  A page added after the manager has been displayed is
    registered but gets no button: the strip keeps the buttons it had,
    none of them is wired to the new page, and when the page is
    activated by its index it becomes the active page while no button is
    highlighted. *)
Theorem late_page_has_no_button w p :
  buttons_match w → flags_owned w → p ∉ tabs w →
  ∃ w' bs,
    (addTab p ;; setActiveTab (Z.of_nat (length (tabs w)))) w
      = (Return tt, w') ∧
    tabs w' = tabs w ++ [p] ∧
    activeTab w' = Some p ∧ isActive (store w' p) = true ∧
    tabContainer w' = Some bs ∧ length bs = length (tabs w) ∧
    ∀ b, b ∈ bs → btn_click b ≠ p ∧ btn_active b = false.
Proof.
  intros (bs & Hbs & Hclick) Hown Hp.
  set (w0 := set_tabs (λ old, old ++ [p]) w).
  assert (Hrun : (addTab p ;; setActiveTab (Z.of_nat (length (tabs w)))) w
                 = activateTab p w0).
  { erewrite bind_Return; [|reflexivity]. fold w0.
    rewrite setActiveTab_run. simpl. rewrite length_app. simpl.
    replace (0 <=? Z.of_nat (length (tabs w)))%Z with true
      by (symmetry; apply Z.leb_le; lia).
    replace (Z.of_nat (length (tabs w))
             <? Z.of_nat (length (tabs w) + 1))%Z with true
      by (symmetry; apply Z.ltb_lt; lia).
    simpl. rewrite Nat2Z.id.
    by rewrite lookup_app_r, Nat.sub_diag. }
  rewrite Hrun, activateTab_run.
  exists (exec (activateTab p) w0), (imap (restyle
    (set_store (λ _, store (exec (activateTab p) w0)) w0)) bs).
  split_and!.
  - done.
  - by rewrite activateTab_tabs.
  - apply activateTab_activeTab.
  - rewrite activateTab_store, isActive_flagged. by case_decide.
  - rewrite activateTab_tabContainer. simpl. by rewrite Hbs.
  - rewrite length_imap, <- Hclick. by rewrite length_map.
  - intros b' (i & b & -> & Hb)%elem_of_lookup_imap_1.
    assert (Ht : tabs w !! i = Some (btn_click b)).
    { rewrite <- Hclick. change (map ?f ?l) with (f <$> l).
      by rewrite list_lookup_fmap, Hb. }
    assert (Hin : btn_click b ∈ tabs w) by (by eapply list_elem_of_lookup_2).
    assert (Hne : btn_click b ≠ p) by (intros Heq; apply Hp; by rewrite <- Heq).
    unfold restyle. simpl.
    rewrite (lookup_app_l_Some _ _ _ _ Ht). simpl. split; [done|].
    rewrite activateTab_store, isActive_flagged.
    case_decide; [congruence|]. simpl.
    apply not_true_iff_false. intros Hact.
    destruct (activeTab w) as [a|] eqn:Ha.
    + rewrite isActive_flagged in Hact. case_decide as Hab; [done|].
      specialize (Hown _ Hin Hact). congruence.
    + specialize (Hown _ Hin Hact). congruence.
Qed.

(** X13.  An activation writes two flags and nothing else in the store:
    the names of all pages, hence their ids, stay as they are, and so
    does the flag of every page other than the activated page and the
    page that was active; the registry and the container are not
    touched. *)
Theorem activateTab_frame tab w :
  let w' := exec (activateTab tab) w in
  (∀ r, _name (store w' r) = _name (store w r)) ∧
  (∀ r, get_id (store w' r) = get_id (store w r)) ∧
  (∀ r, r ≠ tab → activeTab w ≠ Some r →
        isActive (store w' r) = isActive (store w r)) ∧
  tabs w' = tabs w ∧ containerEl w' = containerEl w.
Proof.
  intros w'. unfold w'. split_and!.
  - intros r. apply activateTab_name.
  - intros r. unfold get_id. by rewrite activateTab_name.
  - intros r Hr Ha. rewrite activateTab_store, isActive_flagged.
    case_decide; [congruence|].
    destruct (activeTab w) as [a|]; [|done].
    rewrite isActive_flagged. case_decide; congruence.
  - apply activateTab_tabs.
  - apply activateTab_containerEl.
Qed.
End Unrendered.

Lemma activation_before_display_witness :
  Tabs.tabs ExampleSettingsTab = [0; 1; 2]%nat ∧
  TabFacts.flags_owned ExampleSettingsTab ∧
  Tabs.tabContainer ExampleSettingsTab = None ∧
  Tabs.contentContainer ExampleSettingsTab = None ∧
  Tabs.tabs ExampleSettingsTab !! 2%nat = Some 2%nat ∧
  Tabs.activeTab (exec (Tabs.setActiveTab (Z.of_nat 2)) ExampleSettingsTab)
    = Some 2%nat ∧
  ∃ w2, Tabs.display (exec (Tabs.setActiveTab (Z.of_nat 2)) ExampleSettingsTab)
          = (Return tt, w2) ∧
        Tabs.activeTab w2 = Some 0%nat ∧ TabFacts.only_active w2 0%nat ∧
        (2%nat ≠ 0%nat → Tabs.isActive (Tabs.store w2 2%nat) = false).
Proof.
  assert (E : Tabs.tabs ExampleSettingsTab = [0; 1; 2]%nat) by (by vm_compute).
  assert (H1 : Tabs.tabContainer ExampleSettingsTab = None) by (by vm_compute).
  assert (H2 : Tabs.contentContainer ExampleSettingsTab = None)
    by (by vm_compute).
  assert (H3 : Tabs.tabs ExampleSettingsTab !! 2%nat = Some 2%nat)
    by (by vm_compute).
  pose proof (activation_before_display ExampleSettingsTab 2%nat 2%nat 0%nat
                [1; 2]%nat E example_flags_owned H1 H2 H3) as H.
  split_and!; [exact E|exact example_flags_owned|exact H1|exact H2|exact H3| |].
  - exact (proj1 H).
  - exact (proj2 (proj2 (proj2 (proj2 (proj2 (proj2 H)))))).
Defined.

Lemma opened_buttons_match : TabFacts.buttons_match opened_ExampleSettingsTab.
Proof. eexists. split; by vm_compute. Qed.

Lemma late_page_has_no_button_witness :
  TabFacts.buttons_match opened_ExampleSettingsTab ∧
  TabFacts.flags_owned opened_ExampleSettingsTab ∧
  (3%nat ∉ Tabs.tabs opened_ExampleSettingsTab) ∧
  ∃ w' bs,
    (Tabs.addTab 3%nat ;;
     Tabs.setActiveTab (Z.of_nat (length (Tabs.tabs opened_ExampleSettingsTab))))
      opened_ExampleSettingsTab = (Return tt, w') ∧
    Tabs.tabs w' = Tabs.tabs opened_ExampleSettingsTab ++ [3%nat] ∧
    Tabs.activeTab w' = Some 3%nat ∧
    Tabs.isActive (Tabs.store w' 3%nat) = true ∧
    Tabs.tabContainer w' = Some bs ∧
    length bs = length (Tabs.tabs opened_ExampleSettingsTab) ∧
    ∀ b, b ∈ bs → Tabs.btn_click b ≠ 3%nat ∧ Tabs.btn_active b = false.
Proof.
  assert (H : 3%nat ∉ Tabs.tabs opened_ExampleSettingsTab).
  { change (Tabs.tabs opened_ExampleSettingsTab) with [0; 1; 2]%nat.
    intros Hin. repeat (apply elem_of_cons in Hin as [Hin|Hin]; [lia|]).
    by apply elem_of_nil in Hin. }
  split_and!; [exact opened_buttons_match|exact opened_flags_owned|exact H|].
  exact (late_page_has_no_button opened_ExampleSettingsTab 3%nat
           opened_buttons_match opened_flags_owned H).
Defined.

(** ** The dropdown, beyond the round trip *)

Section DropdownSelection.
Import Settings.
Context {Σ T : Type} `{StrictEq T}.
Implicit Types (this : DropdownSetting Σ T) (o : DropdownOption T).

Lemma getKeyForValue_in_keys this v :
  options this ≠ [] → getKeyForValue this v ∈ keys this.
Proof.
  intros Hne. unfold getKeyForValue, keys.
  destruct (find _ _) as [o|] eqn:E.
  - apply find_Some_elem in E as [Ho _]. by apply list_elem_of_fmap_2.
  - destruct (options this) as [|first rest]; [done|]. simpl.
    apply elem_of_cons. by left.
Qed.

Lemma getValueForKey_in_keys this (k : string) (σ : Σ) :
  k ∈ keys this → ∃ o, o ∈ options this ∧ key o = k ∧
                       getValueForKey this k σ = (Return (value o), σ).
Proof.
  intros (o & -> & Ho)%list_elem_of_fmap.
  destruct (find (λ opt, bool_decide (key opt = key o)) (options this))
    as [o'|] eqn:E.
  - apply find_Some_elem in E as E'. destruct E' as [Ho' Hk].
    apply bool_decide_eq_true in Hk. exists o'. split_and!; [done..|].
    unfold getValueForKey. by rewrite E.
  - rewrite find_None in E. specialize (E o Ho).
    by apply bool_decide_eq_false in E.
Qed.

(** X14.  The key [display] selects can always be resolved again when
    there is at least one option: whatever the bound value, also a stale
    one that no option carries, [getKeyForValue] gives the key of some
    option, so [getValueForKey] on it returns and the change handler
    does not throw.  With no options at all the selected key is the
    empty one, which [getValueForKey] rejects. *)
Theorem initial_selection_resolves this (v : T) (σ : Σ) :
  (options this ≠ [] →
     getKeyForValue this v ∈ keys this ∧
     (∃ o, o ∈ options this ∧
           getValueForKey this (getKeyForValue this v) σ
             = (Return (value o), σ)) ∧
     ∃ σ', DropdownSetting_onChange this (getKeyForValue this v) σ
             = (Return tt, σ')) ∧
  (options this = [] →
     getKeyForValue this v = "" ∧
     getValueForKey this (getKeyForValue this v) σ
       = (Throw "No option found for key: ", σ)).
Proof.
  split.
  - intros Hne. pose proof (getKeyForValue_in_keys this v Hne) as Hin.
    destruct (getValueForKey_in_keys this _ σ Hin) as (o & Ho & Hk & Hrun).
    split_and!; [done|by exists o|].
    unfold DropdownSetting_onChange.
    rewrite (bind_Return _ _ _ _ _ Hrun).
    unfold bind, set_value, get_value, notify, modify, gets. simpl.
    destruct (_onChange this); by eexists.
  - intros E. unfold getValueForKey, getKeyForValue. by rewrite E.
Qed.

Lemma find_by_first_value (opts : list (DropdownOption T)) before o after :
  opts = before ++ o :: after →
  (value o === value o) = true →
  (∀ o', o' ∈ before → (value o' === value o) = false) →
  find (λ opt, value opt === value o) opts = Some o.
Proof.
  intros -> Ho Hb. apply find_Some_first. by exists before, after.
Qed.

Lemma getKeyForValue_unique_value this o :
  equality_comparable (values this) → NoDup (values this) →
  o ∈ options this →
  getKeyForValue this (value o) = key o.
Proof.
  intros Hcmp Hnd (before & after & E)%list_elem_of_split.
  assert (Hv : ∀ o', o' ∈ options this → value o' ∈ values this)
    by (intros o' Ho'; by apply list_elem_of_fmap_2).
  assert (Ho : o ∈ options this).
  { rewrite E. apply elem_of_app. right. apply elem_of_cons. by left. }
  unfold getKeyForValue.
  rewrite (find_by_first_value (options this) before o after E); [done| |].
  - by apply (Hcmp (value o) (Hv o Ho)).
  - intros o' Ho'. apply not_true_iff_false. intros Heq.
    assert (Ho'' : o' ∈ options this).
    { rewrite E. apply elem_of_app. by left. }
    apply (Hcmp (value o') (Hv o' Ho'')) in Heq.
    unfold values in Hnd. rewrite E in Hnd.
    change (map value ?l) with (value <$> l) in Hnd.
    rewrite fmap_app, fmap_cons in Hnd.
    apply NoDup_app in Hnd as (_ & Hdisj & _).
    apply (Hdisj (value o)).
    + rewrite <- Heq. by apply list_elem_of_fmap_2.
    + apply elem_of_cons. by left.
Qed.

(** X15.  [getKeyForValue] is a first-match scan with [===]: for the
    value of an option that is [===] to itself and to the value of no
    earlier option it returns the key of that option; for a value that
    is [===] to the value of no option, as [NaN] is even when an option
    carries it, it returns the key of the first option.  So it is when
    the values can be compared and are pairwise distinct that every
    option is shown under its own key. *)
Theorem getKeyForValue_first_match this :
  (∀ before o after,
     options this = before ++ o :: after →
     (value o === value o) = true →
     (∀ o', o' ∈ before → (value o' === value o) = false) →
     getKeyForValue this (value o) = key o) ∧
  (∀ v first rest,
     options this = first :: rest →
     (∀ o, o ∈ options this → (value o === v) = false) →
     getKeyForValue this v = key first) ∧
  (equality_comparable (values this) → NoDup (values this) →
     ∀ o, o ∈ options this → getKeyForValue this (value o) = key o).
Proof.
  split_and!.
  - intros before o after E Ho Hb. unfold getKeyForValue.
    by rewrite (find_by_first_value (options this) before o after E Ho Hb).
  - intros v first rest E Hnone. unfold getKeyForValue.
    assert (F : find (λ opt, value opt === v) (options this) = None)
      by (by apply find_None).
    by rewrite F, E.
  - intros Hcmp Hnd o Ho. by apply getKeyForValue_unique_value.
Qed.

(** X16.  A selection sticks.  Let the values of the options be
    comparable for equality (so none of them is [NaN]) and pairwise
    distinct, let the accessor give back what was written and let the
    observer, if there is one, leave the bound value alone.  When the
    control reports the key of an option, the handler returns, the bound
    value is then the value of the first option with that key, and a
    new [display] selects the reported key again. *)
Theorem selection_sticks this (k : string) (σ : Σ) :
  equality_comparable (values this) → NoDup (values this) →
  k ∈ keys this →
  (∀ v s, value_get this (value_set this v s) = v) →
  (∀ observer x s, _onChange this = Some observer →
                   value_get this (observer x s) = value_get this s) →
  ∃ o σ', DropdownSetting_onChange this k σ = (Return tt, σ') ∧
          o ∈ options this ∧ key o = k ∧
          value_get this σ' = value o ∧
          last (calls (DropdownSetting_display this σ')) = Some (setValue k).
Proof.
  intros Hcmp Hnd Hk Hlaw Hobs.
  destruct (getValueForKey_in_keys this k σ Hk) as (o & Ho & Hko & Hrun).
  set (σ1 := value_set this (value o) σ).
  set (σ' := match _onChange this with
             | Some observer => observer (value_get this σ1) σ1
             | None => σ1
             end).
  assert (Hhandler : DropdownSetting_onChange this k σ = (Return tt, σ')).
  { unfold DropdownSetting_onChange. rewrite (bind_Return _ _ _ _ _ Hrun).
    unfold bind, set_value, get_value, notify, modify, gets. simpl.
    fold σ1. unfold σ'. by destruct (_onChange this). }
  assert (Hval : value_get this σ' = value o).
  { unfold σ'. destruct (_onChange this) as [observer|] eqn:E.
    - rewrite (Hobs observer _ _ eq_refl). apply Hlaw.
    - apply Hlaw. }
  exists o, σ'. split_and!; [done..|].
  simpl. rewrite last_snoc, Hval.
  by rewrite (getKeyForValue_unique_value this o Hcmp Hnd Ho), Hko.
Qed.
End DropdownSelection.

Lemma selection_sticks_witness :
  Settings.equality_comparable (Settings.values ThemeSetting) ∧
  NoDup (Settings.values ThemeSetting) ∧
  "dark" ∈ Settings.keys ThemeSetting ∧
  ∃ o σ', Settings.DropdownSetting_onChange ThemeSetting "dark" "retro"
            = (Return tt, σ') ∧
          o ∈ Settings.options ThemeSetting ∧ Settings.key o = "dark" ∧
          Settings.value_get (Settings.dropdown_base ThemeSetting) σ'
            = Settings.value o ∧
          last (Settings.calls (Settings.DropdownSetting_display ThemeSetting σ'))
            = Some (Settings.setValue "dark").
Proof.
  assert (H1 : NoDup (Settings.values ThemeSetting))
    by (apply (bool_decide_unpack _); by vm_compute).
  assert (H2 : "dark" ∈ Settings.keys ThemeSetting)
    by (apply (bool_decide_unpack _); by vm_compute).
  split_and!; [apply string_equality_comparable|exact H1|exact H2|].
  apply (selection_sticks ThemeSetting "dark" "retro"
           (string_equality_comparable _) H1 H2).
  - intros v s. reflexivity.
  - intros observer x s Hobs. discriminate Hobs.
Defined.

(** With a [NaN] option the selection does not stick: after the control
    has reported the key of that option, a new [display] selects the
    first key. *)
Lemma nan_selection_falls_back :
  Settings.getValueForKey nan_dropdown "nan" tt = (Return Settings.NaN, tt) ∧
  Settings.getKeyForValue nan_dropdown Settings.NaN = "one".
Proof. split; by vm_compute. Qed.

(** ** The logger, beyond the registry *)

Section LoggerLevels.
Import Logging LogFacts.
Implicit Types (w : World) (l : loc) (level : LogLevel) (s : severity).

Lemma emit_run s l (message : string) (args : list string) w :
  let threshold := match s with
                   | Debug => 30 | Info => 20 | Warn => 10 | Error => 0
                   end%Z in
  let tag := match s with
             | Debug => "DEBUG" | Info => "INFO"
             | Warn => "WARN" | Error => "ERROR"
             end in
  emit s l message args w =
    (Return tt,
     if (threshold <=? level_value (_logLevel (heap w l)))%Z
     then {| loggers := loggers w;
             globalLogLevel := globalLogLevel w;
             heap := heap w;
             next_loc := next_loc w;
             console := console w ++
               [{| line_text := "[" +:+ tag +:+ "] chopro:"
                                +:+ _name (heap w l) +:+ " -- " +:+ message;
                   line_args := args |}] |}
     else w).
Proof.
  destruct s; simpl; unfold debug, info, warn, error, bind, shouldLog, gets;
    simpl; by destruct (_ <=? _)%Z.
Qed.

Lemma app_singleton_neq {A} (l : list A) (x : A) : l ++ [x] ≠ l.
Proof.
  intros E. apply (f_equal length) in E. rewrite length_app in E.
  simpl in E. lia.
Qed.

Lemma prints_iff s l message args w :
  prints s l message args w ↔
  (match s with Debug => 30 | Info => 20 | Warn => 10 | Error => 0 end
   ≤ level_value (_logLevel (heap w l)))%Z.
Proof.
  unfold prints, exec. rewrite emit_run. simpl.
  destruct (_ <=? _)%Z eqn:E; simpl.
  - apply Z.leb_le in E. split; [done|]. intros _. apply app_singleton_neq.
  - apply Z.leb_gt in E. split; [done|lia].
Qed.

(** X17.  The levels are thresholds.  A logger at [SILENT] prints
    nothing, one at [DEBUG] prints everything, and a logger that prints
    at one severity prints at every more severe one: debug, then info,
    then warn, then error.  A call prints at most one line, after the
    lines already there, and it changes nothing else: neither the
    registry nor the level of any logger. *)
Theorem logging_thresholds l (message : string) (args : list string) w :
  (_logLevel (heap w l) = SILENT → ∀ s, ¬ prints s l message args w) ∧
  (_logLevel (heap w l) = DEBUG → ∀ s, prints s l message args w) ∧
  (prints Debug l message args w → prints Info l message args w) ∧
  (prints Info l message args w → prints Warn l message args w) ∧
  (prints Warn l message args w → prints Error l message args w) ∧
  ∀ s, ∃ w', emit s l message args w = (Return tt, w') ∧
             loggers w' = loggers w ∧ heap w' = heap w ∧
             globalLogLevel w' = globalLogLevel w ∧
             (console w' = console w ∨
              ∃ line, console w' = console w ++ [line] ∧
                      line_args line = args).
Proof.
  split_and!.
  - intros E s. rewrite prints_iff, E. destruct s; simpl; lia.
  - intros E s. rewrite prints_iff, E. destruct s; simpl; lia.
  - rewrite !prints_iff. lia.
  - rewrite !prints_iff. lia.
  - rewrite !prints_iff. lia.
  - intros s. rewrite emit_run. eexists. split; [done|].
    destruct (_ <=? _)%Z; simpl; split_and!; try done; [|by left].
    right. by eexists.
Qed.

Lemma getLogger_keeps_synced name w :
  synced w → ∃ l w', getLogger name w = (Return l, w') ∧ synced w' ∧
                     loggers w' !! name = Some l ∧
                     globalLogLevel w' = globalLogLevel w.
Proof.
  intros Hs. destruct (loggers w !! name) as [l|] eqn:E.
  - exists l, w. by rewrite (getLogger_registered name w l E).
  - destruct (getLogger_fresh name w E) as (w' & Hrun & Hreg & Hobj & Hglob).
    exists (next_loc w), w'. split_and!; [done| | |done].
    + intros other l' Ho. rewrite Hreg in Ho. rewrite Hglob.
      destruct (decide (name = other)) as [->|Hne].
      * rewrite lookup_insert_eq in Ho. injection Ho as <-. by rewrite Hobj.
      * rewrite lookup_insert_ne in Ho; [|done].
        destruct (decide (l' = next_loc w)) as [->|Hl]; [by rewrite Hobj|].
        unfold getLogger, bind, gets in Hrun. simpl in Hrun. rewrite E in Hrun.
        simpl in Hrun. injection Hrun as <-. simpl.
        rewrite fn_lookup_insert_ne; [|done]. by apply (Hs other).
    + rewrite Hreg. by rewrite lookup_insert_eq.
Qed.

Lemma setGlobalLogLevel_syncs level w :
  ∃ w', setGlobalLogLevel level w = (Return tt, w') ∧ synced w' ∧
        globalLogLevel w' = level ∧ loggers w' = loggers w.
Proof.
  destruct (setGlobalLogLevel_run level w) as (w' & Hrun & Hglob & Hreg & Hin & _).
  exists w'. split_and!; [done| |done..].
  intros name l E. rewrite Hreg in E. rewrite Hglob. by eapply Hin.
Qed.

Lemma emit_keeps_synced s l message args w :
  synced w → synced (exec (emit s l message args) w).
Proof.
  intros Hs. unfold exec. rewrite emit_run. simpl.
  by destruct (_ <=? _)%Z.
Qed.

Lemma perform_keeps_synced (a : action) w :
  synced w → synced (exec (perform a) w).
Proof.
  intros Hs. destruct a as [name|level|name s message args]; simpl.
  - destruct (getLogger_keeps_synced name w Hs) as (l & w' & Hrun & Hs' & _).
    unfold exec. by rewrite (bind_Return _ _ _ _ _ Hrun).
  - destruct (setGlobalLogLevel_syncs level w) as (w' & Hrun & Hs' & _).
    unfold exec. by rewrite Hrun.
  - destruct (getLogger_keeps_synced name w Hs) as (l & w' & Hrun & Hs' & _).
    unfold exec. rewrite (bind_Return _ _ _ _ _ Hrun).
    by apply emit_keeps_synced.
Qed.

Lemma initial_synced : synced initial.
Proof. intros name l E. simpl in E. by rewrite lookup_empty in E. Qed.

(** X18.  The loggers never drift from the global level: after any
    sequence of [getLogger], [setGlobalLogLevel] and logging calls made
    since the module was loaded, every registered logger has the
    current global level as its own. *)
Theorem levels_follow_global (actions : list action) :
  let w := exec (forEach perform actions) initial in
  ∀ name l, loggers w !! name = Some l →
            result (logLevel l) w = result getGlobalLogLevel w.
Proof.
  intros w name l E.
  assert (Hs : synced w).
  { unfold w. apply (forEach_exec_invariant perform synced (λ _, True));
      [|by apply Forall_true|exact initial_synced].
    intros a w0 _ Hw0. by apply perform_keeps_synced. }
  unfold result, logLevel, getGlobalLogLevel, gets. simpl.
  by rewrite (Hs name l E).
Qed.

(** X19.  Setting the global level reaches every logger, those that
    exist and those created later: in any world, a logger asked for
    after [setGlobalLogLevel level] has that level, whether it was
    registered before the call or not; in particular after
    [setGlobalLogLevel SILENT] no logger obtained from [getLogger]
    prints anything. *)
Theorem setGlobalLogLevel_reaches_all level (name : string) w :
  result (setGlobalLogLevel level ;;
          logger ← getLogger name; logLevel logger) w = Return level ∧
  (level = SILENT →
   ∀ s message args,
     console (exec (setGlobalLogLevel level ;;
                    logger ← getLogger name;
                    emit s logger message args) w) = console w).
Proof.
  destruct (setGlobalLogLevel_run level w)
    as (w1 & Hrun1 & Hglob & Hreg & Hin & Hout).
  assert (Hc1 : console w1 = console w).
  { clear Hin Hout. unfold setGlobalLogLevel in Hrun1.
    erewrite bind_Return in Hrun1; [|reflexivity].
    erewrite bind_Return in Hrun1; [|reflexivity].
    revert Hrun1. simpl. generalize (map snd (map_to_list (loggers w))).
    intros ls.
    set (w0 := {| loggers := loggers w; globalLogLevel := level;
                  heap := heap w; next_loc := next_loc w;
                  console := console w |}).
    change (console w) with (console w0). generalize w0. clear w0.
    induction ls as [|x ls IH]; intros w0; simpl.
    - by intros [= <-].
    - unfold bind at 1, modify at 1. intros Hrun. by rewrite (IH _ Hrun). }
  assert (Hget : ∃ l w2, getLogger name w1 = (Return l, w2) ∧
                         _logLevel (heap w2 l) = level ∧
                         console w2 = console w1).
  { destruct (loggers w1 !! name) as [l|] eqn:E.
    - exists l, w1. rewrite (getLogger_registered name w1 l E).
      split_and!; [done| |done]. rewrite Hreg in E. by eapply Hin.
    - destruct (getLogger_fresh name w1 E) as (w2 & Hrun2 & _ & Hobj & _).
      exists (next_loc w1), w2. split_and!; [done|by rewrite Hobj, Hglob|].
      unfold getLogger, bind, gets in Hrun2. simpl in Hrun2.
      rewrite E in Hrun2. simpl in Hrun2. by injection Hrun2 as <-. }
  destruct Hget as (l & w2 & Hrun2 & Hlevel & Hc2).
  split.
  - unfold result. rewrite (bind_Return _ _ _ _ _ Hrun1).
    rewrite (bind_Return _ _ _ _ _ Hrun2).
    unfold logLevel, gets. simpl. by rewrite Hlevel.
  - intros -> s message args. unfold exec.
    rewrite (bind_Return _ _ _ _ _ Hrun1), (bind_Return _ _ _ _ _ Hrun2).
    rewrite emit_run, Hlevel. simpl.
    rewrite <- Hc1, <- Hc2. by destruct s.
Qed.
End LoggerLevels.

Section LoggerNames.
Import Logging LogFacts.
Implicit Types (w : World) (l : loc) (level : LogLevel) (s : severity).

Lemma getLogger_fresh_world name w :
  loggers w !! name = None →
  getLogger name w =
    (Return (next_loc w),
     {| loggers := <[name := next_loc w]> (loggers w);
        globalLogLevel := globalLogLevel w;
        heap := <[next_loc w := {| _name := name;
                                   _logLevel := globalLogLevel w |}]> (heap w);
        next_loc := S (next_loc w);
        console := console w |}).
Proof. intros E. unfold getLogger, bind, gets. simpl. by rewrite E. Qed.

Lemma getLogger_keeps_named name w :
  named w → ∃ l w', getLogger name w = (Return l, w') ∧ named w' ∧
                    loggers w' !! name = Some l ∧ console w' = console w ∧
                    globalLogLevel w' = globalLogLevel w.
Proof.
  intros Hn. destruct (loggers w !! name) as [l|] eqn:E.
  - exists l, w. by rewrite (getLogger_registered name w l E).
  - eexists _, _. split; [by apply getLogger_fresh_world|]. simpl.
    split_and!; [|by rewrite lookup_insert_eq|done..].
    intros other l' Ho. simpl in *.
    destruct (decide (name = other)) as [->|Hne].
    + rewrite lookup_insert_eq in Ho. injection Ho as <-.
      rewrite fn_lookup_insert. split; [lia|done].
    + rewrite lookup_insert_ne in Ho; [|done].
      destruct (Hn other l' Ho) as [Hlt Hname].
      rewrite fn_lookup_insert_ne; [|lia]. split; [lia|done].
Qed.

(** The loop of [setGlobalLogLevel] allocates nothing, prints nothing
    and renames nothing. *)
Lemma assign_all_frame (ls : list loc) level w :
  next_loc (exec (forEach (λ logger, modify (assign_logLevel logger level))
                          ls) w) = next_loc w ∧
  console (exec (forEach (λ logger, modify (assign_logLevel logger level))
                         ls) w) = console w ∧
  ∀ l, _name (heap (exec (forEach (λ logger,
                                     modify (assign_logLevel logger level))
                                  ls) w) l) = _name (heap w l).
Proof.
  revert w. induction ls as [|x ls IH]; intros w; [done|].
  assert (E : exec (forEach (λ logger, modify (assign_logLevel logger level))
                            (x :: ls)) w
            = exec (forEach (λ logger, modify (assign_logLevel logger level))
                            ls) (assign_logLevel x level w)) by reflexivity.
  rewrite E. destruct (IH (assign_logLevel x level w)) as (Hnext & Hcons & Hname).
  split_and!; [by rewrite Hnext|by rewrite Hcons|].
  intros l. rewrite Hname. simpl.
  destruct (decide (x = l)) as [->|Hne].
  - by rewrite fn_lookup_insert.
  - by rewrite fn_lookup_insert_ne.
Qed.

Lemma setGlobalLogLevel_keeps_named level w :
  named w → named (exec (setGlobalLogLevel level) w).
Proof.
  intros Hn name l E.
  destruct (setGlobalLogLevel_run level w) as (w' & Hrun & _ & Hreg & _).
  assert (Hframe : next_loc (exec (setGlobalLogLevel level) w) = next_loc w ∧
                   ∀ l0, _name (heap (exec (setGlobalLogLevel level) w) l0)
                         = _name (heap w l0)).
  { set (w0 := {| loggers := loggers w; globalLogLevel := level;
                  heap := heap w; next_loc := next_loc w;
                  console := console w |}).
    assert (E0 : exec (setGlobalLogLevel level) w
                 = exec (forEach (λ logger,
                                    modify (assign_logLevel logger level))
                                 (map snd (map_to_list (loggers w)))) w0)
      by reflexivity.
    rewrite E0.
    destruct (assign_all_frame (map snd (map_to_list (loggers w))) level w0)
      as (Hnext & _ & Hname).
    split; [exact Hnext|exact Hname]. }
  destruct Hframe as [Hnext Hname].
  unfold exec in *. rewrite Hrun in *. simpl in *.
  rewrite Hreg in E. rewrite Hnext, Hname. by apply Hn.
Qed.

Lemma emit_keeps_named s l message args w :
  named w → named (exec (emit s l message args) w).
Proof.
  intros Hn. unfold exec. rewrite emit_run. simpl.
  by destruct (_ <=? _)%Z.
Qed.

Lemma perform_keeps_named (a : action) w :
  named w → named (exec (perform a) w).
Proof.
  intros Hn. destruct a as [name|level|name s message args]; simpl.
  - destruct (getLogger_keeps_named name w Hn) as (l & w' & Hrun & Hn' & _).
    unfold exec. by rewrite (bind_Return _ _ _ _ _ Hrun).
  - by apply setGlobalLogLevel_keeps_named.
  - destruct (getLogger_keeps_named name w Hn) as (l & w' & Hrun & Hn' & _).
    unfold exec. rewrite (bind_Return _ _ _ _ _ Hrun).
    by apply emit_keeps_named.
Qed.

Lemma reachable_named (actions : list action) :
  named (exec (forEach perform actions) initial).
Proof.
  apply (forEach_exec_invariant perform named (λ _, True));
    [|by apply Forall_true|].
  - intros a w0 _ Hw0. by apply perform_keeps_named.
  - intros name l E. simpl in E. by rewrite lookup_empty in E.
Qed.

(** X20.  A logger is known by its name.  After any sequence of calls
    made since the module was loaded, the logger registered under a
    name carries that name, two different names never share a logger
    object, and a message logged through the logger of a name is either
    suppressed or printed as one line
    "[TAG] chopro:<name> -- <message>" together with its arguments. *)
Theorem loggers_carry_their_name (actions : list action) :
  let w := exec (forEach perform actions) initial in
  (∀ registered l, loggers w !! registered = Some l →
                   result (name l) w = Return registered) ∧
  (∀ n1 n2 l, loggers w !! n1 = Some l → loggers w !! n2 = Some l →
              n1 = n2) ∧
  ∀ asked s message args,
    let w' := exec (perform (Say asked s message args)) w in
    console w' = console w ∨
    console w' = console w ++
      [{| line_text := "[" +:+ tag s +:+ "] chopro:" +:+ asked
                       +:+ " -- " +:+ message;
          line_args := args |}].
Proof.
  intros w. pose proof (reachable_named actions) as Hn. fold w in Hn.
  split_and!.
  - intros registered l E. unfold result, name, gets. simpl.
    by destruct (Hn registered l E) as [_ ->].
  - intros n1 n2 l E1 E2.
    destruct (Hn n1 l E1) as [_ H1]. destruct (Hn n2 l E2) as [_ H2].
    congruence.
  - intros asked s message args w'. unfold w'. simpl.
    destruct (getLogger_keeps_named asked w Hn)
      as (l & w1 & Hrun & Hn1 & Hreg & Hcons & _).
    unfold exec. rewrite (bind_Return _ _ _ _ _ Hrun), emit_run.
    destruct (Hn1 asked l Hreg) as [_ Hname]. simpl.
    destruct (_ <=? _)%Z; simpl; [right|by left].
    rewrite Hcons, Hname. by destruct s.
Qed.

Lemma perform_keeps_default (a : action) w :
  keeps_level a → synced w ∧ globalLogLevel w = ERROR →
  synced (exec (perform a) w) ∧ globalLogLevel (exec (perform a) w) = ERROR.
Proof.
  intros Ha [Hs Hg]. split; [by apply perform_keeps_synced|].
  destruct a as [asked|level|asked s message args]; simpl; [|done|].
  - destruct (getLogger_keeps_synced asked w Hs) as (l & w' & Hrun & _ & _ & Hg').
    unfold exec. rewrite (bind_Return _ _ _ _ _ Hrun). simpl. congruence.
  - destruct (getLogger_keeps_synced asked w Hs) as (l & w' & Hrun & _ & _ & Hg').
    unfold exec. rewrite (bind_Return _ _ _ _ _ Hrun), emit_run. simpl.
    destruct (_ <=? _)%Z; simpl; congruence.
Qed.

(** X21.  Out of the box only errors are printed: as long as nobody
    calls [setGlobalLogLevel], the global level stays [ERROR], and a
    message logged through the logger of any name reaches the console
    exactly when it is logged with [error]. *)
Theorem default_prints_errors_only (actions : list action) :
  Forall keeps_level actions →
  let w := exec (forEach perform actions) initial in
  result getGlobalLogLevel w = Return ERROR ∧
  ∀ asked s message args,
    console (exec (perform (Say asked s message args)) w) ≠ console w
    ↔ s = Error.
Proof.
  intros Hquiet w.
  assert (Hinv : synced w ∧ globalLogLevel w = ERROR).
  { unfold w.
    apply (forEach_exec_invariant perform
             (λ w0, synced w0 ∧ globalLogLevel w0 = ERROR) keeps_level);
      [|done|split; [exact initial_synced|done]].
    intros a w0 Ha Hw0. by apply perform_keeps_default. }
  destruct Hinv as [Hs Hg]. split.
  - unfold result, getGlobalLogLevel, gets. simpl. by rewrite Hg.
  - intros asked s message args. simpl.
    destruct (getLogger_keeps_synced asked w Hs)
      as (l & w1 & Hrun & Hs1 & Hreg & Hg1).
    assert (Hc : console w1 = console w).
    { destruct (loggers w !! asked) as [l0|] eqn:E.
      - rewrite (getLogger_registered asked w l0 E) in Hrun.
        by injection Hrun as _ <-.
      - rewrite (getLogger_fresh_world asked w E) in Hrun.
        by injection Hrun as _ <-. }
    unfold exec. rewrite (bind_Return _ _ _ _ _ Hrun), emit_run.
    rewrite (Hs1 asked l Hreg), Hg1, Hg. simpl. rewrite <- Hc.
    destruct s; simpl; split; try done.
    intros _. apply app_singleton_neq.
Qed.
End LoggerNames.

Lemma default_prints_errors_only_witness :
  Forall LogFacts.keeps_level
    [LogFacts.Ask "main"; LogFacts.Say "main" LogFacts.Info "Plugin loaded" []] ∧
  result Logging.getGlobalLogLevel
    (exec (forEach LogFacts.perform
             [LogFacts.Ask "main";
              LogFacts.Say "main" LogFacts.Info "Plugin loaded" []])
          Logging.initial) = Return Logging.ERROR.
Proof.
  assert (H : Forall LogFacts.keeps_level
    [LogFacts.Ask "main"; LogFacts.Say "main" LogFacts.Info "Plugin loaded" []])
    by (repeat apply Forall_cons_2; try exact I; apply Forall_nil_2).
  split; [exact H|].
  exact (proj1 (default_prints_errors_only _ H)).
Defined.

Lemma levels_follow_global_witness :
  Logging.loggers
    (exec (forEach LogFacts.perform
             [LogFacts.Ask "main"; LogFacts.SetLevel Logging.INFO])
          Logging.initial) !! "main" = Some 0%nat ∧
  result (Logging.logLevel 0%nat)
    (exec (forEach LogFacts.perform
             [LogFacts.Ask "main"; LogFacts.SetLevel Logging.INFO])
          Logging.initial)
  = result Logging.getGlobalLogLevel
      (exec (forEach LogFacts.perform
               [LogFacts.Ask "main"; LogFacts.SetLevel Logging.INFO])
            Logging.initial).
Proof.
  assert (H : Logging.loggers
    (exec (forEach LogFacts.perform
             [LogFacts.Ask "main"; LogFacts.SetLevel Logging.INFO])
          Logging.initial) !! "main" = Some 0%nat) by (by vm_compute).
  split; [exact H|].
  exact (levels_follow_global
           [LogFacts.Ask "main"; LogFacts.SetLevel Logging.INFO]
           "main" 0%nat H).
Defined.
